(** * Speech_Text_Extraction: the text-to-fields extraction engine of [main.py]

    A shallow embedding of [parse_details] and of the five field extractors
    it calls, together with the parts of the Python run time they rest on:
    [str] methods, the backtracking matcher of the [re] module, [float],
    [round] and exceptions.

    Characters.  A Python [str] is a sequence of code points.  The model
    takes the code points below 256 (Latin-1), one [ascii] per code point,
    and gives every one of them the class it has in CPython ([str.isspace],
    [str.lower], the [\w], [\d] and [\s] of a [str] pattern).  All theorems
    quantify over such texts.  Where a statement reads a test of the code
    ([startswith], a comparison), it is written as the code has it and not
    through what the test comes to on such texts. *)

From Stdlib Require Import Ascii String List ZArith Lia Bool Arith.
From Stdlib Require Import Floats.SpecFloat.
Import ListNotations.

Set Implicit Arguments.

Open Scope list_scope.
Open Scope bool_scope.

(** ** Strings and characters *)

Definition str := list ascii.

(** A string literal of the source. *)
Definition L (s : string) : str := list_ascii_of_string s.

Definition code (c : ascii) : N := N_of_ascii c.

Definition in_range (lo hi : N) (c : ascii) : bool :=
  (lo <=? code c)%N && (code c <=? hi)%N.

Definition is_chr (a c : ascii) : bool := Ascii.eqb a c.

(** [[0-9]], which is also [\d] below code point 256. *)
Definition is_digit : ascii -> bool := in_range 48 57.
(** [[a-z]] *)
Definition is_az : ascii -> bool := in_range 97 122.
(** [[A-Z]] *)
Definition is_AZ : ascii -> bool := in_range 65 90.

(** [str.isspace] of one character, which is also [\s]:
    TAB LF VT FF CR, FS GS RS US, SPACE, NEL and NBSP. *)
Definition is_space (c : ascii) : bool :=
  in_range 9 13 c || in_range 28 32 c
  || (code c =? 133)%N || (code c =? 160)%N.

(** [\w]: alphanumeric ([str.isalnum]) or underscore. *)
Definition is_word (c : ascii) : bool :=
  is_digit c || is_az c || is_AZ c || (code c =? 95)%N
  || (code c =? 170)%N || (code c =? 178)%N || (code c =? 179)%N
  || (code c =? 181)%N || (code c =? 185)%N || (code c =? 186)%N
  || in_range 188 190 c
  || in_range 192 214 c || in_range 216 246 c || in_range 248 255 c.

(** [str.lower] of one character: A-Z and the Latin-1 capitals. *)
Definition lower_char (c : ascii) : ascii :=
  if is_AZ c || in_range 192 214 c || in_range 216 222 c
  then ascii_of_N (code c + 32) else c.

(** [str.lower] *)
Definition lower (s : str) : str := map lower_char s.

(** Leading characters of class [p] removed, and the same at both ends. *)
Fixpoint lstrip_by (p : ascii -> bool) (s : str) : str :=
  match s with
  | c :: s' => if p c then lstrip_by p s' else s
  | [] => []
  end.

Definition strip_by (p : ascii -> bool) (s : str) : str :=
  rev (lstrip_by p (rev (lstrip_by p s))).

(** [str.strip()] with no argument. *)
Definition strip (s : str) : str := strip_by is_space s.

Fixpoint str_eqb (a b : str) : bool :=
  match a, b with
  | [], [] => true
  | x :: a', y :: b' => Ascii.eqb x y && str_eqb a' b'
  | _, _ => false
  end.

(** [str.split()] with no argument: the maximal runs of non-space
    characters.  [cur] is the run being read, reversed. *)
Fixpoint split_aux (cur : str) (s : str) : list str :=
  match s with
  | [] => match cur with [] => [] | _ => [rev cur] end
  | c :: s' =>
      if is_space c
      then match cur with
           | [] => split_aux [] s'
           | _ => rev cur :: split_aux [] s'
           end
      else split_aux (c :: cur) s'
  end.

Definition split (s : str) : list str := split_aux [] s.

(** [sep.join(ws)] *)
Fixpoint join (sep : str) (ws : list str) : str :=
  match ws with
  | [] => []
  | [w] => w
  | w :: ws' => w ++ sep ++ join sep ws'
  end.

(** [s.startswith(p)] *)
Fixpoint startswith (p s : str) : bool :=
  match p, s with
  | [], _ => true
  | a :: p', c :: s' => Ascii.eqb a c && startswith p' s'
  | _ :: _, [] => false
  end.

(** [k in s] on strings: [k] occurs in [s] as a substring. *)
Fixpoint contains (k s : str) : bool :=
  startswith k s ||
  match s with
  | [] => false
  | _ :: s' => contains k s'
  end.

(** [ws[a:b]] for [0 <= a]. *)
Definition slice {A} (ws : list A) (a b : nat) : list A :=
  skipn a (firstn b ws).

(** ** Exceptions *)

Inductive exn : Type :=
| TypeError | ValueError | OverflowError | IndexError | AttributeError.

Inductive result (A : Type) : Type :=
| Ok (a : A)
| Raise (e : exn).
Arguments Ok {A} a.
Arguments Raise {A} e.

Definition bind {A B} (x : result A) (f : A -> result B) : result B :=
  match x with
  | Ok a => f a
  | Raise e => Raise e
  end.

Notation "x <- e1 ;; e2" := (bind e1 (fun x => e2))
  (at level 61, e1 at next level, right associativity).

(** [try: body except Exception: handler] *)
Definition try_except {A} (body : result A) (handler : result A) : result A :=
  match body with
  | Ok a => Ok a
  | Raise _ => handler
  end.

(** [ws[i]] for [0 <= i]. *)
Definition index {A} (ws : list A) (i : nat) : result A :=
  match nth_error ws i with
  | Some w => Ok w
  | None => Raise IndexError
  end.

(** ** The [re] module: a backtracking matcher

    The patterns of [main.py] use literals, classes, sequence, ordered
    alternation, optional groups, greedy repetition of a one-character item,
    capture groups, [\b] and [$].  [Rep p lo hi] is [p{lo,hi}]; [hi = None]
    is an open upper bound. *)

Inductive re : Type :=
| Eps
| Cls (p : ascii -> bool)
| Seq (r1 r2 : re)
| Alt (r1 r2 : re)
| Rep (p : ascii -> bool) (lo : nat) (hi : option nat)
| Grp (n : nat) (r : re)
| Bnd
| Eos.

(** A matcher state: the character before the current position (if any),
    the text from the current position on, and the groups captured so far
    (latest first). *)
Record mstate : Type := MState {
  prev : option ascii;
  rest : str;
  caps : list (nat * str)
}.

Definition is_word_opt (o : option ascii) : bool :=
  match o with
  | Some c => is_word c
  | None => false
  end.

(** [\b]: exactly one side of the position is a word character. *)
Definition at_boundary (st : mstate) : bool :=
  xorb (is_word_opt (prev st)) (is_word_opt (hd_error (rest st))).

(** [$] without MULTILINE: at the end, or before a final line feed. *)
Definition at_eos (st : mstate) : bool :=
  match rest st with
  | [] => true
  | [c] => (code c =? 10)%N
  | _ => false
  end.

Definition or_else {A} (x y : option A) : option A :=
  match x with
  | Some a => Some a
  | None => y
  end.

Section Matcher.
Variable A : Type.

(** Greedy [p{lo,hi}]: take one more character when allowed, and fall
    back to fewer when the rest of the pattern fails. *)
Fixpoint rep (p : ascii -> bool) (lo : nat) (hi : option nat)
         (pv : option ascii) (s : str) (cs : list (nat * str))
         (k : mstate -> option A) {struct s} : option A :=
  let stop := match lo with
              | O => k (MState pv s cs)
              | S _ => None
              end in
  match s with
  | c :: s' =>
      if p c && negb (match hi with Some O => true | _ => false end)
      then or_else (rep p (pred lo) (option_map pred hi) (Some c) s' cs k)
                   stop
      else stop
  | [] => stop
  end.

(** [m r st k]: match [r] at [st], then the rest of the pattern [k];
    the first success in the order of the backtracking search. *)
Fixpoint m (r : re) (st : mstate) (k : mstate -> option A) {struct r}
  : option A :=
  match r with
  | Eps => k st
  | Cls p =>
      match rest st with
      | c :: s' => if p c then k (MState (Some c) s' (caps st)) else None
      | [] => None
      end
  | Seq r1 r2 => m r1 st (fun st' => m r2 st' k)
  | Alt r1 r2 => or_else (m r1 st k) (m r2 st k)
  | Rep p lo hi => rep p lo hi (prev st) (rest st) (caps st) k
  | Grp n r' =>
      m r' st (fun st' =>
        k (MState (prev st') (rest st')
             ((n, firstn (length (rest st) - length (rest st')) (rest st))
                :: caps st')))
  | Bnd => if at_boundary st then k st else None
  | Eos => if at_eos st then k st else None
  end.
End Matcher.

(** A match object: its span, its text and its groups. *)
Record match_obj : Type := Match {
  m_start : nat;
  m_end : nat;
  m_text : str;
  m_caps : list (nat * str);
  m_prev : option ascii;   (* the character before [m_end] *)
  m_rest : str             (* the text from [m_end] on *)
}.

(** [m.group(n)]: [None] for a group that took no part in the match. *)
Fixpoint assoc {B} (n : nat) (l : list (nat * B)) : option B :=
  match l with
  | [] => None
  | (n', v) :: l' => if Nat.eqb n n' then Some v else assoc n l'
  end.

Definition group (mo : match_obj) (n : nat) : option str :=
  assoc n (m_caps mo).

(** One attempt at position [pos]; with [must_advance] an empty match is
    refused (the attempt that follows an empty match). *)
Definition match_at (r : re) (must_advance : bool)
           (pv : option ascii) (s : str) (pos : nat) : option match_obj :=
  m r (MState pv s [])
    (fun st' =>
       let n := length s - length (rest st') in
       if must_advance && Nat.eqb n 0 then None
       else Some (Match pos (pos + n) (firstn n s) (caps st')
                    (prev st') (rest st'))).

(** [re.search]: the first position, left to right, where an attempt
    succeeds. *)
Fixpoint search_from (r : re) (pv : option ascii) (s : str) (pos : nat)
  : option match_obj :=
  match match_at r false pv s pos with
  | Some mo => Some mo
  | None =>
      match s with
      | [] => None
      | c :: s' => search_from r (Some c) s' (S pos)
      end
  end.

Definition search (r : re) (t : str) : option match_obj :=
  search_from r None t 0.

(** The scan shared by [finditer], [findall] and [sub]: the text cut into
    matches and the characters between them.  [skip] counts the characters
    still covered by the last match. *)
Inductive segment : Type :=
| Hit (mo : match_obj)
| Gap (c : ascii).

Fixpoint scan (r : re) (pv : option ascii) (s : str) (pos skip : nat)
  : list segment :=
  let next (gap : bool) (sk : nat) :=
    match s with
    | [] => []
    | c :: s' => (if gap then [Gap c] else []) ++ scan r (Some c) s' (S pos) sk
    end in
  match skip with
  | S sk => next false sk
  | O =>
      match match_at r false pv s pos with
      | None => next true 0
      | Some mo =>
          if Nat.eqb (m_end mo) (m_start mo)
          then Hit mo ::
               match match_at r true pv s pos with
               | None => next true 0
               | Some mo' =>
                   Hit mo' :: next false (pred (m_end mo' - m_start mo'))
               end
          else Hit mo :: next false (pred (m_end mo - m_start mo))
      end
  end.

Fixpoint hits (l : list segment) : list match_obj :=
  match l with
  | [] => []
  | Hit mo :: l' => mo :: hits l'
  | Gap _ :: l' => hits l'
  end.

(** [pattern.finditer(t)] *)
Definition finditer (r : re) (t : str) : list match_obj :=
  hits (scan r None t 0 0).

(** [re.findall(pattern, t)] for a pattern without groups. *)
Definition findall (r : re) (t : str) : list str :=
  map m_text (finditer r t).

(** [re.sub(pattern, repl, t)] for a replacement without group
    references. *)
Definition sub (r : re) (repl : str) (t : str) : str :=
  flat_map (fun sg => match sg with
                      | Hit _ => repl
                      | Gap c => [c]
                      end) (scan r None t 0 0).

(** *** Pattern syntax *)

(** A literal character; under [re.I] it matches both cases.  Among the
    code points below 256 a letter of the patterns of [main.py] has no other
    partner.  (Above them [re.I] gives [i] and [s] one more each, U+0131
    and U+017F, which [str.lower] keeps; they are outside the texts of this
    model.) *)
Definition chr (ci : bool) (c : ascii) : re :=
  if ci then Cls (fun x => Ascii.eqb (lower_char x) (lower_char c))
  else Cls (is_chr c).

(** A literal string. *)
Fixpoint lits (ci : bool) (s : str) : re :=
  match s with
  | [] => Eps
  | [c] => chr ci c
  | c :: s' => Seq (chr ci c) (lits ci s')
  end.

Definition lit (s : string) : re := lits false (L s).
Definition lit_i (s : string) : re := lits true (L s).

(** [r?] (greedy) *)
Definition Opt (r : re) : re := Alt r Eps.
(** [p*] and [p+] on a one-character item *)
Definition Star (p : ascii -> bool) : re := Rep p 0 None.
Definition Plus (p : ascii -> bool) : re := Rep p 1 None.

Fixpoint seqs (l : list re) : re :=
  match l with
  | [] => Eps
  | [r] => r
  | r :: l' => Seq r (seqs l')
  end.

Fixpoint alts (l : list re) : re :=
  match l with
  | [] => Eps
  | [r] => r
  | r :: l' => Alt r (alts l')
  end.

(** [.] without DOTALL *)
Definition dot (c : ascii) : bool := negb (code c =? 10)%N.

(** ** [float] and [round]

    A Python float is an IEEE 754 binary64 number: [spec_float] with
    precision 53 and [emax] 1024, rounded to nearest, ties to even. *)

Definition prec : Z := 53.
Definition emax : Z := 1024.

Definition float_mul : spec_float -> spec_float -> spec_float :=
  SFmul prec emax.

(** The float nearest to [n / d] for integers [0 < n], [0 < d]. *)
Definition float_of_ratio (neg : bool) (n d : positive) : spec_float :=
  SFdiv prec emax (S754_finite neg n 0) (S754_finite false d 0).

(** The float literal [1000.0]. *)
Definition f1000 : spec_float := float_of_ratio false 1000 1.

(** The white space [float] strips from a string: that of [str.isspace]
    without the four separators FS, GS, RS and US. *)
Definition is_float_space (c : ascii) : bool :=
  in_range 9 13 c || (code c =? 32)%N
  || (code c =? 133)%N || (code c =? 160)%N.

Definition digit_val (c : ascii) : Z := Z.of_N (code c) - 48.

Definition digits_val (ds : str) : Z :=
  fold_left (fun a c => 10 * a + digit_val c)%Z ds 0%Z.

(** [digitpart ::= digit (["_"] digit)*]: the digits read (reversed in
    [acc]) and the text left. *)
Fixpoint digitpart_aux (acc : str) (s : str) : str * str :=
  match s with
  | c :: s' =>
      if is_digit c then digitpart_aux (c :: acc) s'
      else if is_chr "_" c
           then match acc, s' with
                | _ :: _, d :: _ =>
                    if is_digit d then digitpart_aux acc s' else (rev acc, s)
                | _, _ => (rev acc, s)
                end
           else (rev acc, s)
  | [] => (rev acc, [])
  end.

Definition digitpart (s : str) : str * str := digitpart_aux [] s.

Definition read_sign (s : str) : bool * str :=
  match s with
  | c :: s' =>
      if is_chr "-" c then (true, s')
      else if is_chr "+" c then (false, s')
      else (false, s)
  | [] => (false, [])
  end.

(** [float(s)] on a string: surrounding white space, a sign, then [inf],
    [infinity], [nan] or a decimal number with an optional exponent; any
    other text raises ValueError.  The value is the float nearest to the
    decimal number. *)
Definition float_of_str (s : str) : result spec_float :=
  let s0 := strip_by is_float_space s in
  let '(neg, s1) := read_sign s0 in
  let l1 := lower s1 in
  if str_eqb l1 (L "inf") || str_eqb l1 (L "infinity")
  then Ok (S754_infinity neg)
  else if str_eqb l1 (L "nan") then Ok S754_nan
  else
    let '(ip, s2) := digitpart s1 in
    let '(fp, s3) :=
      match s2 with
      | c :: s2' => if is_chr "." c then digitpart s2' else ([], s2)
      | [] => ([], [])
      end in
    match ip ++ fp with
    | [] => Raise ValueError
    | ds =>
        let finish (ex : Z) :=
          let k := (ex - Z.of_nat (length fp))%Z in
          match digits_val ds with
          | Zpos n =>
              Ok (float_of_ratio neg
                    (n * Z.to_pos (10 ^ Z.max k 0))
                    (Z.to_pos (10 ^ Z.max (- k) 0)))
          | _ => Ok (S754_zero neg)
          end in
        match s3 with
        | [] => finish 0%Z
        | c :: s3' =>
            if is_chr "e" (lower_char c)
            then let '(eneg, s4) := read_sign s3' in
                 match digitpart s4 with
                 | ((_ :: _) as ed, []) =>
                     finish (if eneg then - digits_val ed else digits_val ed)%Z
                 | _ => Raise ValueError
                 end
            else Raise ValueError
        end
    end.

(** A value handed to [_to_int_safe]. *)
Inductive pyval : Type :=
| VNone
| VFloat (f : spec_float)
| VStr (s : str).

Definition of_opt (o : option str) : pyval :=
  match o with
  | Some s => VStr s
  | None => VNone
  end.

(** [float(v)] *)
Definition py_float (v : pyval) : result spec_float :=
  match v with
  | VNone => Raise TypeError
  | VFloat f => Ok f
  | VStr s => float_of_str s
  end.

(** [n / d] rounded to the nearest integer, ties to even ([0 <= n],
    [0 < d]). *)
Definition round_half_even (n d : Z) : Z :=
  let q := (n / d)%Z in
  match (2 * (n mod d) ?= d)%Z with
  | Lt => q
  | Gt => (q + 1)%Z
  | Eq => if Z.even q then q else (q + 1)%Z
  end.

(** [round(f)] with one argument: an [int]; infinities and NaN raise. *)
Definition py_round (f : spec_float) : result Z :=
  match f with
  | S754_nan => Raise ValueError
  | S754_infinity _ => Raise OverflowError
  | S754_zero _ => Ok 0%Z
  | S754_finite s mt e =>
      let a := if (0 <=? e)%Z then (Zpos mt * 2 ^ e)%Z
               else round_half_even (Zpos mt) (2 ^ (- e)) in
      Ok (if s then (- a)%Z else a)
  end.

(** ** [main.py]: vocabularies and record *)

Definition KNOWN_LOCATIONS : list str :=
  map L [ "kitchen"; "living room"; "bedroom"; "bathroom"; "garage"; "office";
          "dining room"; "kids room"; "study"; "storeroom"; "balcony"; "hall";
          "laundry"; "pantry" ]%string.

Definition DEVICE_KEYWORDS : list str :=
  map L [ "fridge"; "refrigerator"; "ac"; "air conditioner"; "washing machine";
          "microwave"; "oven"; "heater"; "dishwasher"; "fan"; "tv";
          "television"; "cooler"; "freezer"; "pump"; "dryer" ]%string.

(** A dict keeps its keys in insertion order. *)
Definition NUMBER_WORDS : list (str * Z) :=
  [ (L "zero", 0); (L "one", 1); (L "two", 2); (L "three", 3); (L "four", 4);
    (L "five", 5); (L "six", 6); (L "seven", 7); (L "eight", 8);
    (L "nine", 9); (L "ten", 10) ]%Z.

(** [d.keys()] and [d.get(k)] *)
Definition keys {V} (d : list (str * V)) : list str := map fst d.

Fixpoint get {V} (d : list (str * V)) (k : str) : option V :=
  match d with
  | [] => None
  | (k', v) :: d' => if str_eqb k' k then Some v else get d' k
  end.

Record DeviceDetails : Type := mkDeviceDetails {
  name : option str;
  type : option str;
  powerwatts : option Z;
  rating : option Z;
  location : option str
}.

(** A method call on [m.group(n)], which is [None] for a group that took
    no part in the match. *)
Definition attr {B} (o : option str) (f : str -> B) : result B :=
  match o with
  | Some s => Ok (f s)
  | None => Raise AttributeError
  end.

(** A [for] loop whose body either returns a value ([Some]) or falls
    through to the next element ([None]). *)
Fixpoint for_each {X B} (l : list X) (body : X -> result (option B))
  : result (option B) :=
  match l with
  | [] => Ok None
  | x :: l' =>
      r <- body x ;;
      match r with
      | Some b => Ok (Some b)
      | None => for_each l' body
      end
  end.

(** ** [_to_int_safe] *)

Definition _to_int_safe (value : pyval) : result (option Z) :=
  try_except
    (match value with
     | VNone => Ok None
     | _ => f <- py_float value ;; z <- py_round f ;; Ok (Some z)
     end)
    (Ok None).

(** ** [_extract_power_watts] *)

(** Group 1 is [num], group 2 is [unit]. *)
Definition NUM : nat := 1.
Definition UNIT : nat := 2.

(** [\d+(?:\.\d+)?] with [re.I] *)
Definition num_re : re :=
  seqs [ Plus is_digit; Opt (seqs [ lit_i "."; Plus is_digit ]) ].

(** [k(?:ilo)?w(?:att)?s?|w(?:att)?s?] with [re.I] *)
Definition unit_re : re :=
  alts [ seqs [ lit_i "k"; Opt (lit_i "ilo"); lit_i "w"; Opt (lit_i "att");
                Opt (lit_i "s") ];
         seqs [ lit_i "w"; Opt (lit_i "att"); Opt (lit_i "s") ] ].

(** [(?P<num>\d+(?:\.\d+)?)\s*(?P<unit>k(?:ilo)?w(?:att)?s?|w(?:att)?s?)\b]
    with [re.I] *)
Definition power_pat : re :=
  seqs [ Grp NUM num_re; Star is_space; Grp UNIT unit_re; Bnd ].

(** [[:=]] *)
Definition is_colon_eq (c : ascii) : bool := is_chr ":" c || is_chr "=" c.

(** [(?:power|wattage)\s*[:=]?\s*(\d+)] with [re.I] *)
Definition power_word_pat : re :=
  seqs [ alts [ lit_i "power"; lit_i "wattage" ];
         Star is_space; Opt (Cls is_colon_eq); Star is_space;
         Grp 1 (Plus is_digit) ].

Definition _extract_power_watts (text : str) : result (option Z) :=
  let t := lower text in
  match finditer power_pat t with
  | mo :: _ =>
      num <- py_float (of_opt (group mo NUM)) ;;
      unit <- attr (group mo UNIT) lower ;;
      if startswith (L "kw") unit || startswith (L "kilo") unit
      then _to_int_safe (VFloat (float_mul num f1000))
      else _to_int_safe (VFloat num)
  | [] =>
      match search power_word_pat t with
      | Some m2 => _to_int_safe (of_opt (group m2 1))
      | None => Ok None
      end
  end.

(** ** [_extract_rating] *)

(** [[-\s]] *)
Definition is_dash_space (c : ascii) : bool := is_chr "-" c || is_space c.

(** [\s*[-\s]*star[s]?\b], the tail shared by the two star patterns *)
Definition star_tail : list re :=
  [ Star is_space; Star is_dash_space; lit "star"; Opt (Cls (is_chr "s"));
    Bnd ].

(** [\b(\d+)\s*[-\s]*star[s]?\b] *)
Definition star_digit_pat : re :=
  seqs (Bnd :: Grp 1 (Plus is_digit) :: star_tail).

(** [\b(zero|one|...|ten)\s*[-\s]*star[s]?\b], the alternation built from
    the keys of [NUMBER_WORDS] *)
Definition number_word_re : re :=
  alts (map (lits false) (keys NUMBER_WORDS)).

Definition star_word_pat : re :=
  seqs (Bnd :: Grp 1 number_word_re :: star_tail).

(** [(?:is|:)?] *)
Definition opt_is : re := Opt (alts [ lit "is"; lit ":" ]).

(** [\brating\s*(?:is|:)?\s*(\d+)\b] *)
Definition rating_pat : re :=
  seqs [ Bnd; lit "rating"; Star is_space; opt_is; Star is_space;
         Grp 1 (Plus is_digit); Bnd ].

Definition _extract_rating (text : str) : result (option Z) :=
  let t := lower text in
  match search star_digit_pat t with
  | Some mo => _to_int_safe (of_opt (group mo 1))
  | None =>
      match search star_word_pat t with
      | Some m2 =>
          Ok (match group m2 1 with
              | Some w => get NUMBER_WORDS w
              | None => None
              end)
      | None =>
          match search rating_pat t with
          | Some m3 => _to_int_safe (of_opt (group m3 1))
          | None => Ok None
          end
      end
  end.

(** ** [_extract_type] *)

(** [[a-zA-Z]] *)
Definition is_alpha (c : ascii) : bool := is_az c || is_AZ c.

(** [\btype\s*(?:is|:)?\s*([a-zA-Z]+)\b] *)
Definition type_pat : re :=
  seqs [ Bnd; lit "type"; Star is_space; opt_is; Star is_space;
         Grp 1 (Plus is_alpha); Bnd ].

(** [\b{kw}\b] for a word of letters and spaces (what [re.escape] leaves
    of it is the literal itself) *)
Definition whole_word (w : str) : re := seqs [ Bnd; lits false w; Bnd ].

Definition TYPE_KEYWORDS : list str :=
  map L [ "electric"; "gas"; "solar"; "battery"; "diesel" ]%string.

Definition _extract_type (text : str) : result (option str) :=
  let t := lower text in
  match search type_pat t with
  | Some mo => s <- attr (group mo 1) strip ;; Ok (Some s)
  | None =>
      for_each TYPE_KEYWORDS (fun kw =>
        match search (whole_word kw) t with
        | Some _ => Ok (Some kw)
        | None => Ok None
        end)
  end.

(** ** [_extract_location] *)

(** [[a-z ]] *)
Definition is_az_sp (c : ascii) : bool := is_az c || is_chr " " c.

(** [[a-z][a-z ]{1,30}] *)
Definition place_re : re := seqs [ Cls is_az; Rep is_az_sp 1 (Some 30) ].

(** [\b(?:in|for|at)\s+(?:the\s+)?([a-z][a-z ]{1,30})\b] *)
Definition prep_pat : re :=
  seqs [ Bnd; alts [ lit "in"; lit "for"; lit "at" ]; Plus is_space;
         Opt (seqs [ lit "the"; Plus is_space ]);
         Grp 1 place_re; Bnd ].

Definition GENERIC_NOUNS : list str :=
  map L [ "device"; "appliance"; "room"; "area" ]%string.

(** [\b(device|appliance|room|area)\b.*$] *)
Definition generic_pat : re :=
  seqs [ Bnd; Grp 1 (alts (map (lits false) GENERIC_NOUNS));
         Bnd; Star dot; Eos ].

Definition _extract_location (text : str) : result (option str) :=
  let t := lower text in
  r <- for_each KNOWN_LOCATIONS (fun loc =>
         match search (whole_word loc) t with
         | Some _ => Ok (Some loc)
         | None => Ok None
         end) ;;
  match r with
  | Some loc => Ok (Some loc)
  | None =>
      match search prep_pat t with
      | Some mo =>
          candidate <- attr (group mo 1) strip ;;
          let candidate := strip (sub generic_pat [] candidate) in
          let words := split candidate in
          let candidate := join (L " ") (firstn 3 words) in
          Ok (match candidate with
              | [] => None
              | _ => Some candidate
              end)
      | None => Ok None
      end
  end.

(** ** [_extract_device_name] *)

(** [[a-z0-9]] *)
Definition is_az09 (c : ascii) : bool := is_az c || is_digit c.

(** [range(n)] for an integer [n]: empty when [n <= 0]. *)
Definition range (n : Z) : list nat := seq 0 (Z.to_nat n).

Definition _extract_device_name (text : str) : result (option str) :=
  let t := lower text in
  let words := findall (Plus is_az09) t in
  for_each (range (Z.of_nat (length words) - 1)) (fun i =>
    w0 <- index words i ;;
    w1 <- index words (i + 1) ;;
    let two_words := w0 ++ L " " ++ w1 in
    let three_words := join (L " ") (slice words i (i + 3)) in
    for_each DEVICE_KEYWORDS (fun keyword =>
      if contains keyword two_words || contains keyword three_words
      then
        let start := Nat.max 0 (i - 1) in
        let candidate := join (L " ") (slice words start (i + 3)) in
        Ok (Some (strip candidate))
      else Ok None)).

(** ** [parse_details] *)

Definition parse_details (text : str) : result DeviceDetails :=
  n <- _extract_device_name text ;;
  ty <- _extract_type text ;;
  pw <- _extract_power_watts text ;;
  rt <- _extract_rating text ;;
  loc <- _extract_location text ;;
  Ok (mkDeviceDetails n ty pw rt loc).

(** ** A relational reading of the matcher

    [Matches r st st']: pattern [r] can take the matcher from [st] to
    [st'], without regard to the order in which the search tries the
    alternatives. *)

(** The character before the position reached after reading [w]. *)
Definition adv (pv : option ascii) (w : str) : option ascii :=
  fold_left (fun _ c => Some c) w pv.

Definition hi_ok (hi : option nat) (n : nat) : Prop :=
  match hi with
  | Some h => n <= h
  | None => True
  end.

Definition all_in (p : ascii -> bool) (w : str) : Prop :=
  Forall (fun c => p c = true) w.

Inductive Matches : re -> mstate -> mstate -> Prop :=
| M_Eps st : Matches Eps st st
| M_Cls p c pv s cs :
    p c = true ->
    Matches (Cls p) (MState pv (c :: s) cs) (MState (Some c) s cs)
| M_Seq r1 r2 st1 st2 st3 :
    Matches r1 st1 st2 -> Matches r2 st2 st3 -> Matches (Seq r1 r2) st1 st3
| M_AltL r1 r2 st st' : Matches r1 st st' -> Matches (Alt r1 r2) st st'
| M_AltR r1 r2 st st' : Matches r2 st st' -> Matches (Alt r1 r2) st st'
| M_Rep p lo hi pv w s cs :
    all_in p w -> lo <= length w -> hi_ok hi (length w) ->
    Matches (Rep p lo hi) (MState pv (w ++ s) cs) (MState (adv pv w) s cs)
| M_Grp n r st st' :
    Matches r st st' ->
    Matches (Grp n r) st
      (MState (prev st') (rest st')
         ((n, firstn (length (rest st) - length (rest st')) (rest st))
            :: caps st'))
| M_Bnd st : at_boundary st = true -> Matches Bnd st st
| M_Eos st : at_eos st = true -> Matches Eos st st.

(** The words of a pattern, assertions apart. *)
Fixpoint lang (r : re) (w : str) : Prop :=
  match r with
  | Eps | Bnd | Eos => w = []
  | Cls p => exists c, w = [c] /\ p c = true
  | Seq r1 r2 => exists w1 w2, w = w1 ++ w2 /\ lang r1 w1 /\ lang r2 w2
  | Alt r1 r2 => lang r1 w \/ lang r2 w
  | Rep p lo hi => all_in p w /\ lo <= length w /\ hi_ok hi (length w)
  | Grp _ r' => lang r' w
  end.

(** What group [n] of pattern [r] can hold after a match. *)
Fixpoint grp_lang (r : re) (n : nat) (v : str) : Prop :=
  match r with
  | Seq r1 r2 | Alt r1 r2 => grp_lang r1 n v \/ grp_lang r2 n v
  | Grp n' r' => (n = n' /\ lang r' v) \/ grp_lang r' n v
  | _ => False
  end.

(** Group [n] takes part in every match of [r]. *)
Fixpoint grp_set (r : re) (n : nat) : bool :=
  match r with
  | Seq r1 r2 => grp_set r1 n || grp_set r2 n
  | Alt r1 r2 => grp_set r1 n && grp_set r2 n
  | Grp n' r' => Nat.eqb n n' || grp_set r' n
  | _ => false
  end.

(** [r] matches [t] at the position that splits it into [pre] and the
    rest, reaching state [st']. *)
Definition matches_at (r : re) (pre post : str) (st' : mstate) : Prop :=
  Matches r (MState (adv None pre) post []) st'.

(** The float of the decimal number [ip.fp]. *)
Definition decimal_float (ip fp : str) : spec_float :=
  match digits_val (ip ++ fp) with
  | Zpos n => float_of_ratio false n (Z.to_pos (10 ^ Z.of_nat (length fp)))
  | _ => S754_zero false
  end.

(** The text [ip] or [ip.fp] of a number. *)
Definition decimal_text (ip fp : str) : str :=
  ip ++ match fp with
        | [] => []
        | _ => L "." ++ fp
        end.

(** A float that is not below zero, or one [round] refuses. *)
Definition fnonneg (f : spec_float) : Prop :=
  match f with
  | S754_finite s _ _ => s = false
  | _ => True
  end.

(** [z] is an integer nearest to [n / d]. *)
Definition nearest_int (n d z : Z) : Prop :=
  (Z.abs (2 * (z * d - n)) <= d)%Z.

(** [z] is the integer nearest to [n / d], and the even one of the two
    when [n / d] lies half-way between them. *)
Definition nearest_even (n d z : Z) : Prop :=
  nearest_int n d z /\
  ((Z.abs (2 * (z * d - n)) = d)%Z -> Z.even z = true).

Definition all_ascii : list ascii := map ascii_of_nat (seq 0 256).

(** The pattern has no capture group. *)
Fixpoint no_grp (r : re) : bool :=
  match r with
  | Seq r1 r2 | Alt r1 r2 => no_grp r1 && no_grp r2
  | Grp _ _ => false
  | _ => true
  end.

(** The unit texts [unit_re] can read, lower-cased. *)
Definition UNIT_TEXTS : list str :=
  map L [ "kw"; "kws"; "kwatt"; "kwatts"; "kilow"; "kilows"; "kilowatt";
          "kilowatts"; "w"; "ws"; "watt"; "watts" ]%string.

(** [w] occurs in [t] as a whole word: between two positions that have no
    word character on their outer side. *)
Definition whole_word_in (w t : str) : Prop :=
  exists pre post,
    t = pre ++ w ++ post /\
    is_word_opt (adv None pre) = false /\
    is_word_opt (hd_error post) = false.

(** [x] is the first element of [l] with property [P]. *)
Definition first_with {X} (P : X -> Prop) (l : list X) (x : X) : Prop :=
  exists l1 l2, l = l1 ++ x :: l2 /\ P x /\ Forall (fun y => ~ P y) l1.

(** A word that starts and ends with a word character. *)
Definition wordy (w : str) : Prop :=
  is_word_opt (hd_error w) = true /\ is_word_opt (adv None w) = true.

Definition is_some {B} (o : option B) : bool :=
  match o with
  | Some _ => true
  | None => false
  end.

(** The float the power extractor rounds: the number, times [1000.0] when
    the lower-cased unit starts with [kw] or with [kilo]. *)
Definition power_value (ip fp u : str) : spec_float :=
  if startswith (L "kw") (lower u) || startswith (L "kilo") (lower u)
  then float_mul (decimal_float ip fp) f1000
  else decimal_float ip fp.

(** The words the name extractor works on. *)
Definition words_of (text : str) : list str :=
  findall (Plus is_az09) (lower text).

(** The window of [n] adjacent words that starts at word [i]. *)
Definition window (words : list str) (i n : nat) : str :=
  join (L " ") (slice words i (i + n)).

(** Some device keyword is a substring of the 2-word or of the 3-word
    window at [i]. *)
Definition window_hit (words : list str) (i : nat) : bool :=
  existsb (fun k => contains k (window words i 2)
                    || contains k (window words i 3)) DEVICE_KEYWORDS.

(** A word of [str.split] or of [[a-z0-9]+]: not empty, no white space. *)
Definition is_token (w : str) : Prop :=
  w <> [] /\ all_in (fun c => negb (is_space c)) w.

(** [candidate if candidate else None] *)
Definition nonempty_opt (s : str) : option str :=
  match s with
  | [] => None
  | _ => Some s
  end.

(** What the fallback of the location extractor makes of its capture. *)
Definition location_fallback (g : str) : option str :=
  let candidate := strip (sub generic_pat [] (strip g)) in
  nonempty_opt (join (L " ") (firstn 3 (split candidate))).

(** A location that is lower-case and has at most three words. *)
Definition location_ok (o : option str) : Prop :=
  match o with
  | Some l => lower l = l /\ length (split l) <= 3
  | None => True
  end.

(** The candidate cut at the leftmost match of the generic-noun pattern. *)
Definition cut_at_generic (c : str) : str :=
  match search generic_pat c with
  | Some mo => firstn (m_start mo) c
  | None => c
  end.

(** [noun] stands in [c] as a whole word right after [pre]. *)
Definition whole_word_after (pre noun c : str) : Prop :=
  exists post,
    c = pre ++ noun ++ post /\
    is_word_opt (adv None pre) = false /\
    is_word_opt (hd_error post) = false.

(** [kept] is [c] without its leftmost whole-word generic noun and
    without all that follows it; all of [c] when it has no such noun. *)
Definition cut_spec (c kept : str) : Prop :=
  (kept = c /\
   forall pre noun, In noun GENERIC_NOUNS -> ~ whole_word_after pre noun c)
  \/ (exists noun,
        In noun GENERIC_NOUNS /\ whole_word_after kept noun c /\
        forall pre' noun',
          In noun' GENERIC_NOUNS -> whole_word_after pre' noun' c ->
          length kept <= length pre').

(** The fallback pattern as the specification words it,
    [(in|for|at) (the)? <1-3 words>], a word being a run of lower-case
    letters:
    [\b(?:in|for|at)\s+(?:the\s+)?([a-z]+(?:\s+[a-z]+(?:\s+[a-z]+)?)?)\b] *)
Definition spec_prep_pat : re :=
  seqs [ Bnd; alts [ lit "in"; lit "for"; lit "at" ]; Plus is_space;
         Opt (seqs [ lit "the"; Plus is_space ]);
         Grp 1 (seqs [ Plus is_az;
                       Opt (seqs [ Plus is_space; Plus is_az;
                                   Opt (seqs [ Plus is_space;
                                               Plus is_az ]) ]) ]);
         Bnd ].

(** The fallback stage with the pattern of the specification. *)
Definition spec_location_fallback (t : str) : option str :=
  match search spec_prep_pat t with
  | Some mo =>
      match group mo 1 with
      | Some g => location_fallback g
      | None => None
      end
  | None => None
  end.

(** The match object of an attempt at [pos] on [s] that ended in state
    [st']. *)
Definition mo_of (pos : nat) (s : str) (st' : mstate) : match_obj :=
  let n := length s - length (rest st') in
  Match pos (pos + n) (firstn n s) (caps st') (prev st') (rest st').

(** The value of a computation, [None] when it raised. *)
Definition opt_of_result {B} (r : result B) : option B :=
  match r with
  | Ok b => Some b
  | Raise _ => None
  end.

(** No character, or one that is not white space. *)
Definition no_space_opt (o : option ascii) : Prop :=
  match o with
  | Some c => is_space c = false
  | None => True
  end.

(** The record of a text that gives nothing, and a number that is absent
    or not negative. *)
Definition absent_record : DeviceDetails :=
  mkDeviceDetails None None None None None.

Definition nonneg_opt (o : option Z) : Prop :=
  match o with
  | Some z => (0 <= z)%Z
  | None => True
  end.

(** The scale of a unit: [1000] for a unit that starts with [kw] or with
    [kilo] once lower-cased, else [1]. *)
Definition unit_scale (u : str) : Z :=
  if startswith (L "kw") (lower u) || startswith (L "kilo") (lower u)
  then 1000%Z else 1%Z.

(** A string field is absent or not the empty string. *)
Definition not_empty_opt (o : option str) : Prop :=
  match o with
  | Some s => s <> []
  | None => True
  end.

(** ** The service

    The endpoints write and remove a file, call the transcriber and print.
    Nothing is fixed here about the file system, the transcriber or the
    output: they belong to the host, every step that touches them is one
    of the host's operations, and the state they work on is a [world] of
    any type, passed along explicitly. *)

(** An exception that leaves a function of the service: one of the
    classes of the extraction engine, an [OSError] of a file operation, or
    one of any other class, kept by the name of the class. *)
Inductive failure : Type :=
| Engine (e : exn)
| OSError
| Other (cls : str).

Inductive reply (A : Type) : Type :=
| Returns (a : A)
| Raises (e : failure).
Arguments Returns {A} a.
Arguments Raises {A} e.

(** What a call of [whisper_model.transcribe] comes to.  It returns the
    result dict; or it raises an exception [e] whose class derives from
    [Exception], kept as its text [str(e)]; or it raises one whose class
    does not ([KeyboardInterrupt], [SystemExit] and the like), kept by the
    name of the class. *)
Inductive transcription : Type :=
| Transcript (result : list (str * pyval))
| Fails (e : str)
| Interrupted (cls : str).

(** The truth value of a string: [if text]. *)
Definition truthy (s : str) : bool :=
  match s with
  | [] => false
  | _ :: _ => true
  end.

(** [d.get(k, default)] *)
Definition get_default {V} (d : list (str * V)) (k : str) (default : V) : V :=
  match get d k with
  | Some v => v
  | None => default
  end.

(** [value.strip()]: the stripped string, or the text of the
    [AttributeError] of a value that is no string. *)
Definition strip_of (value : pyval) : str + str :=
  match value with
  | VStr s => inl (strip s)
  | VNone => inr (L "'NoneType' object has no attribute 'strip'")
  | VFloat _ => inr (L "'float' object has no attribute 'strip'")
  end.

(** What [transcribe] answers without a transcript. *)
Definition error_response : list (str * str) :=
  [(L "error", L "Transcription failed or empty audio")].

Record ParseRequest : Type := mkParseRequest { text : str }.

(** An uploaded file: its name, if it has one, and what [read] gives. *)
Record UploadFile : Type := mkUploadFile {
  filename : option str;
  read : str
}.

Section Service.

Variable world : Type.

(** A step that reads and changes the world and may raise. *)
Definition io (A : Type) : Type := world -> reply A * world.

Definition ret {A} (a : A) : io A := fun w => (Returns a, w).

Definition raise {A} (e : failure) : io A := fun w => (Raises e, w).

Definition and_then {A B} (x : io A) (f : A -> io B) : io B :=
  fun w =>
    match x w with
    | (Returns a, w') => f a w'
    | (Raises e, w') => (Raises e, w')
    end.

Notation "x <~ e1 ;; e2" := (and_then e1 (fun x => e2))
  (at level 61, e1 at next level, right associativity).

(** A call of the extraction engine from the service. *)
Definition lift {A} (r : result A) : io A :=
  match r with
  | Ok a => ret a
  | Raise e => raise (Engine e)
  end.

(** [try: body finally: final]: [final] runs whatever [body] did, and an
    exception of [final] replaces the outcome of [body]. *)
Definition try_finally {A} (body : io A) (final : io unit) : io A :=
  fun w =>
    let (r, w1) := body w in
    match final w1 with
    | (Returns _, w2) => (r, w2)
    | (Raises e, w2) => (Raises e, w2)
    end.

(** What the service takes from its host: the directory of
    [tempfile.gettempdir()]; [os.path.join] on two strings; the block
    [with open(path, "wb") as f: f.write(data)]; [os.path.exists], which
    answers and changes nothing; [os.remove]; [whisper_model.transcribe];
    and [print].  Each of them may do to the world what it likes, and all
    but the first two and [os.path.exists] may raise. *)
Record host : Type := Host {
  tmp_dir : str;
  path_join : str -> str -> str;
  write_file : str -> str -> io unit;
  os_path_exists : str -> world -> bool;
  os_remove : str -> io unit;
  whisper_transcribe : str -> world -> transcription * world;
  print : str -> io unit
}.

(** [os.path.join(a, b)], where [b] may be [None]. *)
Definition os_path_join (h : host) (a : str) (b : option str) : io str :=
  match b with
  | Some b' => ret (path_join h a b')
  | None => raise (Engine TypeError)
  end.

(** *** [speech_to_text]

    The [try] block ends with the stripped text, with an exception that
    [except Exception] catches ([inl (inr e)], [e] its text), or with one
    that it lets through. *)
Definition speech_to_text (h : host) (audio_path : str) : io str :=
  fun w =>
    let (out, w1) := whisper_transcribe h audio_path w in
    match (match out with
           | Transcript result =>
               inl (strip_of (get_default result (L "text") (VStr [])))
           | Fails e => inl (inr e)
           | Interrupted cls => inr cls
           end) with
    | inl (inl text) => (Returns text, w1)
    | inl (inr e) =>
        (_ <~ print h (L "[ERROR] Whisper transcription failed: " ++ e) ;;
         ret []) w1
    | inr cls => (Raises (Other cls), w1)
    end.

(** *** [transcribe]

    The [try] block leaves through its [return] ([inl]) or comes to its
    end with [text] ([inr]). *)
Definition transcribe (h : host) (file : UploadFile) : io (list (str * str)) :=
  tmp_path <~ os_path_join h (tmp_dir h) (filename file) ;;
  _ <~ write_file h tmp_path (read file) ;;
  r <~ try_finally
         (text <~ speech_to_text h tmp_path ;;
          if negb (truthy text)
          then ret (inl [(L "error", L "Transcription failed or empty audio")])
          else ret (inr text))
         (fun w => if os_path_exists h tmp_path w
                   then os_remove h tmp_path w else ret tt w) ;;
  match r with
  | inl response => ret response
  | inr text => ret [(L "text", text)]
  end.

(** *** [add_device_voice] *)

Definition add_device_voice (h : host) (file : UploadFile) : io DeviceDetails :=
  tmp_path <~ os_path_join h (tmp_dir h) (filename file) ;;
  _ <~ write_file h tmp_path (read file) ;;
  details <~ try_finally
               (text <~ speech_to_text h tmp_path ;;
                if truthy text then lift (parse_details text)
                else ret (mkDeviceDetails None None None None None))
               (fun w => if os_path_exists h tmp_path w
                         then os_remove h tmp_path w else ret tt w) ;;
  ret details.

End Service.

Arguments ret {world A} a w.
Arguments raise {world A} e w.
Arguments lift {world A} r w.

Notation "x <~ e1 ;; e2" := (and_then e1 (fun x => e2))
  (at level 61, e1 at next level, right associativity).

(** *** [parse_text] *)

Definition parse_text (req : ParseRequest) : result DeviceDetails :=
  parse_details (text req).

(** *** A host for examples

    Its world is a table of files by the text of their path and the lines
    printed.  It keeps files as they are written and refuses nothing; its
    transcriber gives the content of the file as the transcript and raises
    for a path without a file. *)
Record plain_world : Type := PlainWorld {
  files : str -> option str;
  stdout : list str
}.

Definition plain_host : host plain_world :=
  Host (L "/tmp")
       (fun a b => a ++ L "/" ++ b)
       (fun path data w =>
          (Returns tt,
           PlainWorld (fun p => if str_eqb p path then Some data
                                else files w p)
                      (stdout w)))
       (fun path w => is_some (files w path))
       (fun path w =>
          match files w path with
          | Some _ =>
              (Returns tt,
               PlainWorld (fun p => if str_eqb p path then None
                                    else files w p)
                          (stdout w))
          | None => (Raises OSError, w)
          end)
       (fun path w =>
          (match files w path with
           | Some data => Transcript [(L "text", VStr data)]
           | None => Fails (L "No such file")
           end, w))
       (fun line w => (Returns tt, PlainWorld (files w) (stdout w ++ [line]))).

Definition empty_world : plain_world := PlainWorld (fun _ => None) [].

(** * Properties of the run-time model *)

Section EngineFacts.
Variable A : Type.

Lemma or_else_l (x y : option A) : x <> None -> or_else x y <> None.
Proof. destruct x; simpl; congruence. Qed.

Lemma or_else_r (x y : option A) : y <> None -> or_else x y <> None.
Proof. destruct x; simpl; congruence. Qed.

Lemma or_else_some (x y : option A) a :
  or_else x y = Some a -> x = Some a \/ (x = None /\ y = Some a).
Proof. destruct x; simpl; intros; [left | right]; auto. Qed.

Lemma rep_sound p : forall s lo hi pv cs k (a : A),
    rep p lo hi pv s cs k = Some a ->
    exists w s', s = w ++ s' /\ all_in p w /\ lo <= length w /\
                 hi_ok hi (length w) /\
                 k (MState (adv pv w) s' cs) = Some a.
Proof.
  induction s as [|c s IH]; intros lo hi pv cs k a H; simpl in H.
  - destruct lo; [|discriminate].
    exists [], []. repeat split; auto; try constructor.
    destruct hi; simpl; lia.
  - assert (Hstop : match lo with
                    | O => k (MState pv (c :: s) cs)
                    | S _ => None
                    end = Some a ->
                    exists w s', c :: s = w ++ s' /\ all_in p w /\
                      lo <= length w /\ hi_ok hi (length w) /\
                      k (MState (adv pv w) s' cs) = Some a).
    { intros Hs. destruct lo; [|discriminate].
      exists [], (c :: s). repeat split; auto; try constructor.
      destruct hi; simpl; lia. }
    destruct (p c) eqn:Hp; simpl in H; [|auto].
    destruct (negb match hi with Some 0 => true | _ => false end) eqn:Hh;
      [|auto].
    apply or_else_some in H. destruct H as [H | [_ H]]; [|auto].
    apply IH in H. destruct H as (w & s' & -> & Hw & Hlo & Hhi & Hk).
    exists (c :: w), s'. repeat split; auto.
    + constructor; auto.
    + simpl; lia.
    + destruct hi as [[|h]|]; simpl in *; try discriminate; lia.
Qed.

Lemma rep_complete p : forall w s lo hi pv cs (k : mstate -> option A),
    all_in p w -> lo <= length w -> hi_ok hi (length w) ->
    k (MState (adv pv w) s cs) <> None ->
    rep p lo hi pv (w ++ s) cs k <> None.
Proof.
  induction w as [|c w IH]; intros s lo hi pv cs k Hw Hlo Hhi Hk.
  - simpl in *. assert (lo = 0) by lia. subst lo.
    destruct s as [|c s]; simpl; auto.
    destruct (p c && _); auto. apply or_else_r; auto.
  - inversion Hw; subst. simpl in *.
    replace (p c) with true by auto.
    destruct hi as [[|h]|]; simpl in *; try lia.
    + apply or_else_l. apply IH; simpl; auto; lia.
    + apply or_else_l. apply IH; simpl; auto; lia.
Qed.

Lemma m_sound : forall r st k (a : A),
    m r st k = Some a -> exists st', Matches r st st' /\ k st' = Some a.
Proof.
  induction r as [|p|r1 IH1 r2 IH2|r1 IH1 r2 IH2|p lo hi|n r IH| |];
    intros st k a H; simpl in H.
  - exists st; split; [constructor | auto].
  - destruct st as [pv [|c s] cs]; simpl in H; [discriminate|].
    destruct (p c) eqn:Hp; [|discriminate].
    eexists; split; [constructor; auto | eauto].
  - apply IH1 in H. destruct H as (st1 & H1 & H).
    apply IH2 in H. destruct H as (st2 & H2 & H).
    exists st2; split; [econstructor; eauto | auto].
  - apply or_else_some in H. destruct H as [H | [_ H]].
    + apply IH1 in H. destruct H as (st' & H1 & H).
      exists st'; split; [apply M_AltL; auto | auto].
    + apply IH2 in H. destruct H as (st' & H1 & H).
      exists st'; split; [apply M_AltR; auto | auto].
  - destruct st as [pv s cs]; simpl in H.
    apply rep_sound in H. destruct H as (w & s' & -> & Hw & Hlo & Hhi & H).
    eexists; split; [apply M_Rep; eauto | eauto].
  - apply IH in H. destruct H as (st' & H1 & H).
    eexists; split; [apply M_Grp; eauto | eauto].
  - destruct (at_boundary st) eqn:Hb; [|discriminate].
    exists st; split; [constructor; auto | auto].
  - destruct (at_eos st) eqn:Hb; [|discriminate].
    exists st; split; [constructor; auto | auto].
Qed.

Lemma m_complete : forall r st st',
    Matches r st st' ->
    forall k : mstate -> option A, k st' <> None -> m r st k <> None.
Proof.
  induction 1; intros k Hk; simpl; auto.
  - rewrite H; auto.
  - apply or_else_l; auto.
  - apply or_else_r; auto.
  - apply rep_complete; auto.
  - rewrite H; auto.
  - rewrite H; auto.
Qed.
End EngineFacts.

Lemma adv_app pv w1 w2 : adv pv (w1 ++ w2) = adv (adv pv w1) w2.
Proof. unfold adv. apply fold_left_app. Qed.

Lemma firstn_len_app (w s : str) :
  firstn (length (w ++ s) - length s) (w ++ s) = w.
Proof.
  rewrite length_app. replace (length w + length s - length s) with
    (length w + 0) by lia.
  rewrite firstn_app_2. simpl. apply app_nil_r.
Qed.

(** A match reads a prefix [w] of the text, and [w] is a word of the
    pattern. *)
Lemma Matches_rest r st st' :
  Matches r st st' ->
  exists w, rest st = w ++ rest st' /\ prev st' = adv (prev st) w /\
            lang r w.
Proof.
  induction 1; simpl.
  - exists []; auto.
  - exists [c]; repeat split; eauto.
  - destruct IHMatches1 as (w1 & E1 & P1 & L1).
    destruct IHMatches2 as (w2 & E2 & P2 & L2).
    exists (w1 ++ w2). rewrite E1, E2, P2, P1, adv_app, app_assoc.
    repeat split; eauto.
  - destruct IHMatches as (w & E & P & Lw). exists w; auto.
  - destruct IHMatches as (w & E & P & Lw). exists w; auto.
  - exists w; auto.
  - destruct IHMatches as (w & E & P & Lw). exists w; auto.
  - exists []; auto.
  - exists []; auto.
Qed.

(** A group holds a word of its pattern, or what it held before. *)
Lemma Matches_caps r st st' :
  Matches r st st' ->
  forall n v, assoc n (caps st') = Some v ->
              grp_lang r n v \/ assoc n (caps st) = Some v.
Proof.
  induction 1; simpl; intros g v Hv; auto.
  - apply IHMatches2 in Hv. destruct Hv as [Hv | Hv]; auto.
    apply IHMatches1 in Hv. destruct Hv; auto.
  - apply IHMatches in Hv. destruct Hv; auto.
  - apply IHMatches in Hv. destruct Hv; auto.
  - destruct (Nat.eqb g n) eqn:E.
    + apply Nat.eqb_eq in E. subst g. inversion Hv; subst. left; left.
      split; auto.
      destruct (Matches_rest H) as (w & Ew & _ & Lw).
      rewrite Ew, firstn_len_app. auto.
    + apply IHMatches in Hv. destruct Hv; auto.
Qed.

(** A group that every match goes through is set after a match. *)
Lemma Matches_caps_mono r st st' :
  Matches r st st' ->
  forall n, assoc n (caps st) <> None -> assoc n (caps st') <> None.
Proof.
  induction 1; simpl; intros g Hg; auto.
  destruct (Nat.eqb g n); [discriminate | auto].
Qed.

Lemma Matches_grp_set r st st' :
  Matches r st st' ->
  forall n, grp_set r n = true -> assoc n (caps st') <> None.
Proof.
  induction 1; simpl; intros g Hg; try discriminate.
  - apply orb_true_iff in Hg. destruct Hg as [Hg | Hg]; auto.
    eapply Matches_caps_mono; eauto.
  - apply andb_true_iff in Hg. destruct Hg; auto.
  - apply andb_true_iff in Hg. destruct Hg; auto.
  - destruct (Nat.eqb g n) eqn:E; [discriminate | auto].
Qed.

(** *** One attempt, [re.search] and the scan *)

Lemma match_at_some r adv_ pv s pos mo :
  match_at r adv_ pv s pos = Some mo ->
  exists st', Matches r (MState pv s []) st' /\ mo = mo_of pos s st'.
Proof.
  unfold match_at. intros H. apply m_sound in H.
  destruct H as (st' & HM & H). exists st'; split; auto.
  destruct (adv_ && _); [discriminate|]. inversion H; reflexivity.
Qed.

Lemma match_at_none r pv s pos :
  match_at r false pv s pos = None ->
  forall st', ~ Matches r (MState pv s []) st'.
Proof.
  unfold match_at. intros H st' HM.
  eapply m_complete in HM; [apply HM; exact H|].
  simpl. discriminate.
Qed.

Lemma match_at_pos r b pv s pos pos' :
  match_at r b pv s pos = None -> match_at r b pv s pos' = None.
Proof.
  unfold match_at. intros H.
  destruct (m r (MState pv s []) _) eqn:E in |- *; auto.
  apply m_sound in E. destruct E as (st' & HM & E).
  eapply m_complete in HM; [exfalso; apply HM; exact H|].
  simpl in *. destruct (b && _); discriminate.
Qed.

(** [re.search] returns the match of the leftmost position that has
    one. *)
Lemma search_from_some r : forall s pv pos mo,
    search_from r pv s pos = Some mo ->
    exists pre post,
      s = pre ++ post /\
      match_at r false (adv pv pre) post (pos + length pre) = Some mo /\
      (forall pre' post', s = pre' ++ post' -> length pre' < length pre ->
         match_at r false (adv pv pre') post' 0 = None).
Proof.
  induction s as [|c s IH]; intros pv pos mo H; simpl in H.
  - destruct (match_at r false pv [] pos) eqn:E; [|discriminate].
    inversion H; subst. exists [], []. simpl. rewrite Nat.add_0_r.
    repeat split; auto. intros; lia.
  - destruct (match_at r false pv (c :: s) pos) eqn:E.
    + inversion H; subst. exists [], (c :: s). simpl. rewrite Nat.add_0_r.
      repeat split; auto. intros; lia.
    + apply IH in H. destruct H as (pre & post & -> & Hm & Hleft).
      exists (c :: pre), post. simpl.
      replace (pos + S (length pre)) with (S pos + length pre) by lia.
      repeat split; auto.
      intros [|c' pre'] post' Heq Hlen; simpl in *.
      * subst post'. eapply match_at_pos; eauto.
      * inversion Heq; subst. apply Hleft; auto. lia.
Qed.

Lemma search_from_none r : forall s pv pos,
    search_from r pv s pos = None ->
    forall pre post, s = pre ++ post ->
      match_at r false (adv pv pre) post 0 = None.
Proof.
  induction s as [|c s IH]; intros pv pos H pre post Heq; simpl in H.
  - destruct (match_at r false pv [] pos) eqn:E; [discriminate|].
    destruct pre; [|discriminate]. simpl in *. subst post.
    eapply match_at_pos; eauto.
  - destruct (match_at r false pv (c :: s) pos) eqn:E; [discriminate|].
    destruct pre as [|c' pre]; simpl in *.
    + subst post. eapply match_at_pos; eauto.
    + inversion Heq; subst. eapply IH; eauto.
Qed.

(** [re.search] in terms of the relation: the leftmost position with a
    match, or none when no position has one. *)
Lemma search_some r t mo :
  search r t = Some mo ->
  exists pre post st',
    t = pre ++ post /\ matches_at r pre post st' /\
    mo = mo_of (length pre) post st' /\
    (forall pre' post' st'', t = pre' ++ post' ->
       length pre' < length pre -> ~ matches_at r pre' post' st'').
Proof.
  unfold search. intros H. apply search_from_some in H.
  destruct H as (pre & post & -> & Hm & Hleft).
  apply match_at_some in Hm. destruct Hm as (st' & HM & ->).
  exists pre, post, st'. repeat split; auto.
  intros pre' post' st'' Heq Hlen. eapply match_at_none; eauto.
Qed.

Lemma search_none r t :
  search r t = None ->
  forall pre post st', t = pre ++ post -> ~ matches_at r pre post st'.
Proof.
  unfold search. intros H pre post st' Heq.
  eapply match_at_none. eapply search_from_none; eauto.
Qed.

Lemma search_complete r t pre post st' :
  t = pre ++ post -> matches_at r pre post st' -> search r t <> None.
Proof.
  intros Heq HM H. eapply search_none in H; eauto.
Qed.

(** The first match of [finditer] is the match of [re.search]. *)
Lemma scan_hd r : forall s pv pos,
    hd_error (hits (scan r pv s pos 0)) = search_from r pv s pos.
Proof.
  induction s as [|c s IH]; intros pv pos; simpl.
  - destruct (match_at r false pv [] pos) as [mo|]; auto.
    destruct (Nat.eqb _ _); auto.
  - destruct (match_at r false pv (c :: s) pos) as [mo|]; simpl; auto.
    destruct (Nat.eqb _ _); auto.
Qed.

Lemma finditer_hd r t : hd_error (finditer r t) = search r t.
Proof. apply scan_hd. Qed.

(** *** Characters: facts checked on all 256 code points *)

Lemma ascii_forall (P : ascii -> bool) :
  forallb P all_ascii = true -> forall c, P c = true.
Proof.
  intros H c. rewrite forallb_forall in H. apply H.
  unfold all_ascii. rewrite <- (ascii_nat_embedding c).
  apply in_map. apply in_seq. pose proof (nat_ascii_bounded c). lia.
Qed.

Ltac by_chars c H :=
  revert H; revert c;
  match goal with
  | |- forall c, @?P c = true -> @?Q c = ?b =>
      let F := fresh in
      intros c;
      assert (F : implb (P c) (Bool.eqb (Q c) b) = true)
        by (revert c; apply ascii_forall; vm_compute; reflexivity);
      let E := fresh in
      cbv beta in F; intros E; rewrite E in F; simpl in F;
      apply Bool.eqb_prop in F; exact F
  end.

Lemma digit_not_float_space c : is_digit c = true -> is_float_space c = false.
Proof. intros H. by_chars c H. Qed.

Lemma digit_not_minus c : is_digit c = true -> is_chr "-" c = false.
Proof. intros H. by_chars c H. Qed.

Lemma digit_not_plus c : is_digit c = true -> is_chr "+" c = false.
Proof. intros H. by_chars c H. Qed.

Lemma digit_not_i c :
  is_digit c = true -> Ascii.eqb (lower_char c) "i" = false.
Proof. intros H. by_chars c H. Qed.

Lemma digit_not_n c :
  is_digit c = true -> Ascii.eqb (lower_char c) "n" = false.
Proof. intros H. by_chars c H. Qed.

Lemma dot_ci c :
  Ascii.eqb (lower_char c) (lower_char ".") = true -> is_chr "." c = true.
Proof. intros H. by_chars c H. Qed.

Lemma az_sp_lower c : is_az_sp c = true -> Ascii.eqb (lower_char c) c = true.
Proof. intros H. by_chars c H. Qed.

Lemma az09_not_space c : is_az09 c = true -> is_space c = false.
Proof. intros H. by_chars c H. Qed.

Lemma is_chr_eq a c : is_chr a c = true -> c = a.
Proof. unfold is_chr. intros H. apply Ascii.eqb_eq in H. auto. Qed.

(** *** [float] on the text of a number *)

Arguments float_of_ratio : simpl never.

Lemma lstrip_by_id p q s :
  all_in q s -> (forall c, q c = true -> p c = false) -> lstrip_by p s = s.
Proof.
  intros Hs Hq. destruct s as [|c s]; simpl; auto.
  inversion Hs; subst. rewrite Hq; auto.
Qed.

Lemma strip_by_id p q s :
  all_in q s -> (forall c, q c = true -> p c = false) -> strip_by p s = s.
Proof.
  intros Hs Hq. unfold strip_by.
  rewrite lstrip_by_id with (q := q) (s := s); auto.
  rewrite lstrip_by_id with (q := q); auto.
  - apply rev_involutive.
  - apply Forall_rev; auto.
Qed.

Lemma digitpart_aux_digits : forall ds acc tl,
    all_in is_digit ds ->
    match tl with
    | [] => True
    | c :: _ => is_digit c = false /\ is_chr "_" c = false
    end ->
    digitpart_aux acc (ds ++ tl) = (rev acc ++ ds, tl).
Proof.
  induction ds as [|d ds IH]; intros acc tl Hds Htl; cbn [app digitpart_aux].
  - rewrite app_nil_r. destruct tl as [|c tl]; cbn [digitpart_aux]; auto.
    destruct Htl as [-> ->]. reflexivity.
  - inversion Hds; subst. rewrite H1. rewrite IH; auto.
    cbn [rev]. rewrite <- app_assoc. reflexivity.
Qed.

Lemma digitpart_digits ds tl :
  all_in is_digit ds ->
  match tl with
  | [] => True
  | c :: _ => is_digit c = false /\ is_chr "_" c = false
  end ->
  digitpart (ds ++ tl) = (ds, tl).
Proof. intros; unfold digitpart; rewrite digitpart_aux_digits; auto. Qed.

Lemma float_of_str_decimal ip fp :
  ip <> [] -> all_in is_digit ip -> all_in is_digit fp ->
  float_of_str (decimal_text ip fp) = Ok (decimal_float ip fp).
Proof.
  intros Hne Hip Hfp.
  assert (Hall : all_in (fun c => is_digit c || is_chr "." c)
                   (decimal_text ip fp)).
  { unfold decimal_text. apply Forall_app; split.
    - eapply Forall_impl; [|exact Hip].
      cbv beta; intros x Hx; rewrite Hx; auto.
    - destruct fp; [constructor|]. constructor; [reflexivity|].
      eapply Forall_impl; [|exact Hfp].
      cbv beta; intros x Hx; rewrite Hx; auto. }
  unfold float_of_str.
  rewrite strip_by_id with (q := fun c => is_digit c || is_chr "." c);
    [|exact Hall|].
  2:{ intros c Hc. apply orb_true_iff in Hc. destruct Hc as [Hc | Hc].
      - apply digit_not_float_space; auto.
      - apply is_chr_eq in Hc; subst; reflexivity. }
  destruct ip as [|d ip]; [congruence|]. inversion Hip; subst.
  unfold decimal_text. cbn [app read_sign].
  rewrite (digit_not_minus _ H1), (digit_not_plus _ H1).
  cbn [lower map L list_ascii_of_string str_eqb].
  rewrite (digit_not_i _ H1), (digit_not_n _ H1). cbn [andb orb].
  change (d :: ip ++ ?x) with ((d :: ip) ++ x).
  rewrite digitpart_digits; auto.
  2:{ destruct fp; simpl; auto. }
  assert (Hval :
    match digits_val ((d :: ip) ++ fp) with
    | Zpos n =>
        Ok (float_of_ratio false
              (n * Z.to_pos (10 ^ Z.max (0 - Z.of_nat (length fp)) 0))
              (Z.to_pos (10 ^ Z.max (- (0 - Z.of_nat (length fp))) 0)))
    | _ => Ok (S754_zero false)
    end = Ok (decimal_float (d :: ip) fp)).
  { unfold decimal_float. destruct (digits_val _); auto.
    rewrite Z.max_r by lia. rewrite Z.max_l by lia.
    change (Z.to_pos (10 ^ 0)) with 1%positive. rewrite Pos.mul_1_r.
    replace (- (0 - Z.of_nat (length fp)))%Z with (Z.of_nat (length fp))
      by lia. reflexivity. }
  destruct fp as [|f fp].
  - cbn [app]. rewrite app_nil_r in *. cbn [length] in *. exact Hval.
  - cbn [app L list_ascii_of_string]. cbn [is_chr Ascii.eqb Bool.eqb andb].
    replace (f :: fp) with ((f :: fp) ++ []) at 1 by apply app_nil_r.
    rewrite digitpart_digits; auto.
Qed.

(** *** [round] and [_to_int_safe] *)

Lemma Ok_inj {B} (a b : B) : Ok a = Ok b -> a = b.
Proof. congruence. Qed.

Lemma to_int_safe_total v : exists o, _to_int_safe v = Ok o.
Proof.
  unfold _to_int_safe, try_except.
  destruct (match v with VNone => _ | _ => _ end); eauto.
Qed.

Lemma to_int_safe_float f :
  _to_int_safe (VFloat f) = Ok (opt_of_result (py_round f)).
Proof. unfold _to_int_safe. simpl. destruct (py_round f); reflexivity. Qed.

Lemma to_int_safe_str s :
  _to_int_safe (VStr s) =
  Ok (opt_of_result (f <- float_of_str s ;; py_round f)).
Proof.
  unfold _to_int_safe. cbn [py_float].
  destruct (float_of_str s) as [f|]; simpl; auto.
  destruct (py_round f); reflexivity.
Qed.

Lemma round_half_even_nearest n d :
  (0 <= n)%Z -> (0 < d)%Z -> nearest_int n d (round_half_even n d).
Proof.
  intros Hn Hd. unfold nearest_int, round_half_even. cbv zeta.
  pose proof (Z.div_mod n d ltac:(lia)) as E.
  pose proof (Z.mod_pos_bound n d Hd) as B.
  set (q := (n / d)%Z) in *. set (r := (n mod d)%Z) in *.
  clearbody q r.
  destruct (Z.compare_spec (2 * r) d); [destruct (Z.even q)| |]; nia.
Qed.

Lemma round_half_even_tie n d :
  (0 <= n)%Z -> (0 < d)%Z ->
  (Z.abs (2 * (round_half_even n d * d - n)) = d)%Z ->
  Z.even (round_half_even n d) = true.
Proof.
  intros Hn Hd. unfold round_half_even. cbv zeta.
  pose proof (Z.div_mod n d ltac:(lia)) as E.
  pose proof (Z.mod_pos_bound n d Hd) as B.
  set (q := (n / d)%Z) in *. set (r := (n mod d)%Z) in *.
  destruct (Z.compare_spec (2 * r) d) as [T|T|T].
  - destruct (Z.even q) eqn:Q; intros _; [exact Q|].
    replace (q + 1)%Z with (Z.succ q) by lia.
    rewrite Z.even_succ, <- Z.negb_even, Q. reflexivity.
  - intros H. exfalso. clearbody q r. nia.
  - intros H. exfalso. clearbody q r. nia.
Qed.

Lemma round_half_even_nearest_even n d :
  (0 <= n)%Z -> (0 < d)%Z -> nearest_even n d (round_half_even n d).
Proof.
  intros Hn Hd. split.
  - apply round_half_even_nearest; assumption.
  - apply round_half_even_tie; assumption.
Qed.

Lemma round_half_even_nonneg n d :
  (0 <= n)%Z -> (0 < d)%Z -> (0 <= round_half_even n d)%Z.
Proof.
  intros Hn Hd. unfold round_half_even. cbv zeta.
  pose proof (Z.div_pos n d Hn Hd).
  destruct (2 * (n mod d) ?= d)%Z; [destruct (Z.even _)| |]; lia.
Qed.

Lemma py_round_nonneg f z : fnonneg f -> py_round f = Ok z -> (0 <= z)%Z.
Proof.
  destruct f as [s|s| |s mt e]; cbn [py_round fnonneg]; intros Hf H;
    try discriminate.
  - inversion H; lia.
  - subst s. apply Ok_inj in H. subst z. destruct (0 <=? e)%Z eqn:He.
    + apply Z.leb_le in He. apply Z.mul_nonneg_nonneg; [lia|].
      apply Z.pow_nonneg; lia.
    + apply Z.leb_gt in He. apply round_half_even_nonneg; [lia|].
      apply Z.pow_pos_nonneg; lia.
Qed.

(** [round] of a finite float [(-1)^s * mt * 2^e]: the value itself when
    it is an integer, a nearest integer otherwise. *)
Lemma py_round_nearest s mt e :
  exists z, py_round (S754_finite s mt e) = Ok z /\
    let v := if s then Zneg mt else Zpos mt in
    if (0 <=? e)%Z then z = (v * 2 ^ e)%Z else nearest_int v (2 ^ (- e)) z.
Proof.
  cbn [py_round]. eexists; split; [reflexivity|]. cbv zeta.
  destruct (0 <=? e)%Z eqn:He.
  - destruct s; [|reflexivity].
    change (Zneg mt) with (- Zpos mt)%Z. ring.
  - apply Z.leb_gt in He.
    assert (Hd : (0 < 2 ^ (- e))%Z) by (apply Z.pow_pos_nonneg; lia).
    pose proof (@round_half_even_nearest (Zpos mt) _ ltac:(lia) Hd) as N.
    unfold nearest_int in *. destruct s; lia.
Qed.

Lemma py_round_nearest_even s mt e :
  exists z, py_round (S754_finite s mt e) = Ok z /\
    let v := if s then Zneg mt else Zpos mt in
    if (0 <=? e)%Z then z = (v * 2 ^ e)%Z else nearest_even v (2 ^ (- e)) z.
Proof.
  cbn [py_round]. eexists; split; [reflexivity|]. cbv zeta.
  destruct (0 <=? e)%Z eqn:He.
  - destruct s; [|reflexivity].
    change (Zneg mt) with (- Zpos mt)%Z. ring.
  - apply Z.leb_gt in He.
    assert (Hd : (0 < 2 ^ (- e))%Z) by (apply Z.pow_pos_nonneg; lia).
    destruct (@round_half_even_nearest_even (Zpos mt) _ ltac:(lia) Hd)
      as [N T].
    set (a := round_half_even (Zpos mt) (2 ^ (- e))) in *.
    set (d := (2 ^ (- e))%Z) in *. clearbody a d.
    unfold nearest_even, nearest_int in *. destruct s.
    + split; [lia|]. intros H. rewrite Z.even_opp. apply T. lia.
    + split; [lia|]. exact T.
Qed.

Lemma binary_round_aux_sign sx mx ex lx :
  match binary_round_aux prec emax sx mx ex lx with
  | S754_finite s _ _ => s = sx
  | _ => True
  end.
Proof.
  unfold binary_round_aux.
  destruct (shr_fexp _ _ _ _ _) as [mrs' e'].
  destruct (shr_fexp _ _ _ _ _) as [mrs'' e''].
  destruct (shr_m mrs''); auto.
  destruct (_ <=? _)%Z; auto.
Qed.

Lemma float_of_ratio_nonneg n d : fnonneg (float_of_ratio false n d).
Proof.
  unfold float_of_ratio, SFdiv.
  destruct (SFdiv_core_binary _ _ _ _ _ _) as [[mz ez] lz].
  apply binary_round_aux_sign.
Qed.

Lemma f1000_eq : f1000 = S754_finite false 8796093022208000 (-43).
Proof. vm_compute. reflexivity. Qed.

Lemma float_mul_nonneg f : fnonneg f -> fnonneg (float_mul f f1000).
Proof.
  rewrite f1000_eq. unfold float_mul, SFmul.
  destruct f as [s|s| |s mt e]; simpl; auto.
  intros ->. apply binary_round_aux_sign.
Qed.

Lemma decimal_float_nonneg ip fp : fnonneg (decimal_float ip fp).
Proof.
  unfold decimal_float. destruct (digits_val _); simpl; auto.
  apply float_of_ratio_nonneg.
Qed.

(** *** Integers below [2^53] go through [float] unchanged *)

Section FloatExact.
Local Open Scope Z_scope.

Lemma digits2_pos_lower n : 2 ^ (Zpos (digits2_pos n) - 1) <= Zpos n.
Proof.
  induction n as [p IH|p IH|]; cbn [digits2_pos]; try (simpl; lia).
  - rewrite Pos2Z.inj_succ.
    replace (Z.succ (Zpos (digits2_pos p)) - 1)
      with (Z.succ (Zpos (digits2_pos p) - 1)) by lia.
    rewrite Z.pow_succ_r by lia. lia.
  - rewrite Pos2Z.inj_succ.
    replace (Z.succ (Zpos (digits2_pos p)) - 1)
      with (Z.succ (Zpos (digits2_pos p) - 1)) by lia.
    rewrite Z.pow_succ_r by lia. lia.
Qed.

Lemma digits2_pos_le n k :
  0 <= k -> Zpos n < 2 ^ k -> Zpos (digits2_pos n) <= k.
Proof.
  intros Hk H. pose proof (digits2_pos_lower n) as Lo.
  destruct (Z_le_gt_dec (Zpos (digits2_pos n)) k) as [|G]; auto.
  assert (2 ^ k <= 2 ^ (Zpos (digits2_pos n) - 1))
    by (apply Z.pow_le_mono_r; lia).
  lia.
Qed.

(** [n * 2^k] as a positive number, and its number of bits. *)
Lemma shift_digits n k :
  0 <= k -> exists p, Zpos n * 2 ^ k = Zpos p /\
                      Zpos (digits2_pos p) = Zpos (digits2_pos n) + k.
Proof.
  intros Hk. revert k Hk. apply natlike_ind.
  - exists n. split; lia.
  - intros k Hk (p & E & D). exists (xO p). split.
    + rewrite Z.pow_succ_r by lia. lia.
    + cbn [digits2_pos]. rewrite Pos2Z.inj_succ. lia.
Qed.

Lemma div_eucl_1 z : Z.div_eucl z 1 = (z, 0).
Proof.
  pose proof (Z.div_1_r z) as D. pose proof (Z.mod_1_r z) as M.
  unfold Z.div, Z.modulo in *. destruct (Z.div_eucl z 1).
  simpl in *. congruence.
Qed.

(** The float of an integer below [2^53]: the integer itself, its
    mantissa shifted to 53 bits. *)
Lemma float_of_pos n :
  Zpos n < 2 ^ 53 ->
  exists p,
    float_of_ratio false n 1 =
    S754_finite false p (Zpos (digits2_pos n) - 53) /\
    Zpos p = Zpos n * 2 ^ (53 - Zpos (digits2_pos n)).
Proof.
  intros H. pose proof (@digits2_pos_le n 53 ltac:(lia) H) as Hd.
  set (d := Zpos (digits2_pos n)) in *.
  assert (Hd1 : 1 <= d) by (unfold d; lia).
  destruct (@shift_digits n (53 - d) ltac:(lia)) as (p & Ep & Dp).
  exists p. split; auto.
  unfold float_of_ratio, SFdiv, SFdiv_core_binary.
  cbn [Zdigits2 digits2_pos]. fold d.
  unfold fexp, SpecFloat.emin, prec, emax.
  replace (Z.min (Z.max (d + 0 - (1 + 0) - 53) (3 - 1024 - 53)) (0 - 0))
    with (d - 54) by lia.
  replace (0 - 0 - (d - 54)) with (Z.succ (53 - d)) by lia.
  destruct (Z.succ (53 - d)) as [|s|s] eqn:Es; try lia.
  rewrite Z.shiftl_mul_pow2 by lia. rewrite <- Es.
  rewrite Z.pow_succ_r by lia.
  replace (Zpos n * (2 * 2 ^ (53 - d))) with (Zpos (xO p)) by lia.
  rewrite div_eucl_1.
  change (new_location 1 0) with loc_Exact. cbn [xorb].
  unfold binary_round_aux, shr_fexp.
  cbn [Zdigits2 digits2_pos shr_record_of_loc]. rewrite Pos2Z.inj_succ, Dp.
  fold d. unfold fexp, SpecFloat.emin.
  replace (Z.max (Z.succ (d + (53 - d)) + (d - 54) - 53) (3 - 1024 - 53)
           - (d - 54)) with 1 by lia.
  cbn [shr iter_pos shr_1 shr_m loc_of_shr_record round_nearest_even Zdigits2
         orb].
  rewrite Dp. fold d.
  replace (Z.max (d + (53 - d) + (d - 54 + 1) - 53) (3 - 1024 - 53)
           - (d - 54 + 1)) with 0 by lia.
  cbn [shr shr_m].
  replace (d - 54 + 1 <=? 1024 - 53) with true
    by (symmetry; apply Z.leb_le; lia).
  f_equal. lia.
Qed.

Lemma round_half_even_mul z d : 0 < d -> round_half_even (z * d) d = z.
Proof.
  intros Hd. unfold round_half_even. cbv zeta.
  rewrite Z.div_mul, Z.mod_mul by lia.
  assert (E : (2 * 0 ?= d) = Lt) by (apply Z.compare_lt_iff; lia).
  rewrite E. reflexivity.
Qed.

Lemma py_round_pos_exact n :
  Zpos n < 2 ^ 53 -> py_round (float_of_ratio false n 1) = Ok (Zpos n).
Proof.
  intros H. pose proof (@digits2_pos_le n 53 ltac:(lia) H) as Hd.
  destruct (float_of_pos H) as (p & -> & Ep).
  cbn [py_round]. f_equal.
  destruct (0 <=? Zpos (digits2_pos n) - 53) eqn:E.
  - apply Z.leb_le in E.
    assert (E53 : Zpos (digits2_pos n) = 53) by lia.
    rewrite E53 in *. rewrite Ep. simpl. lia.
  - rewrite Ep.
    replace (- (Zpos (digits2_pos n) - 53)) with (53 - Zpos (digits2_pos n))
      by lia.
    apply round_half_even_mul. apply Z.pow_pos_nonneg; lia.
Qed.

Lemma digit_val_range c : is_digit c = true -> 0 <= digit_val c <= 9.
Proof.
  unfold is_digit, in_range, digit_val. intros H.
  apply andb_true_iff in H. destruct H as [H1 H2].
  apply N.leb_le in H1. apply N.leb_le in H2. lia.
Qed.

Lemma digits_fold_nonneg ds :
  all_in is_digit ds -> forall acc, 0 <= acc ->
  0 <= fold_left (fun a c => 10 * a + digit_val c) ds acc.
Proof.
  induction 1 as [|c ds Hc Hds IH]; intros acc Hacc; cbn [fold_left]; auto.
  apply IH. pose proof (@digit_val_range c Hc). lia.
Qed.

Lemma digits_val_nonneg ds : all_in is_digit ds -> 0 <= digits_val ds.
Proof. intros H. apply digits_fold_nonneg; [exact H | lia]. Qed.

(** [round(float(ds))] for digits with a value below [2^53] is that
    value. *)
Lemma round_decimal_exact ds :
  all_in is_digit ds -> digits_val ds < 2 ^ 53 ->
  py_round (decimal_float ds []) = Ok (digits_val ds).
Proof.
  intros Hd Hv. pose proof (digits_val_nonneg Hd) as Hn.
  unfold decimal_float. rewrite app_nil_r.
  destruct (digits_val ds) as [|n|n] eqn:E; try lia; [reflexivity|].
  change (Z.to_pos (10 ^ Z.of_nat (length (@nil ascii)))) with 1%positive.
  apply py_round_pos_exact. exact Hv.
Qed.

End FloatExact.

(** *** Groups of a match found by [re.search] *)

(** A group set during a match holds a piece of the text read. *)
Lemma Matches_caps_sub r st st' :
  Matches r st st' ->
  forall n v, assoc n (caps st') = Some v ->
              (exists a b, rest st = a ++ v ++ b) \/
              assoc n (caps st) = Some v.
Proof.
  induction 1; simpl; intros g v Hv; auto.
  - apply IHMatches2 in Hv. destruct Hv as [(a & b & E) | Hv].
    + destruct (Matches_rest H) as (w1 & E1 & _). left.
      exists (w1 ++ a), b. rewrite E1, E, <- app_assoc. reflexivity.
    + apply IHMatches1 in Hv. auto.
  - destruct (Nat.eqb g n) eqn:E.
    + inversion Hv; subst. left.
      destruct (Matches_rest H) as (w & Ew & _).
      exists [], (rest st'). rewrite Ew, firstn_len_app. auto.
    + apply IHMatches in Hv. auto.
Qed.

Lemma search_group r t mo n :
  search r t = Some mo -> grp_set r n = true ->
  exists v, group mo n = Some v /\ grp_lang r n v /\
            exists a b, t = a ++ v ++ b.
Proof.
  intros H Hset. apply search_some in H.
  destruct H as (pre & post & st' & -> & HM & -> & _).
  unfold matches_at in HM. unfold group, mo_of; simpl.
  pose proof (Matches_grp_set HM n Hset) as Hn.
  destruct (assoc n (caps st')) as [v|] eqn:E; [|congruence].
  exists v. split; auto.
  destruct (Matches_caps HM _ E) as [Hl | Hl]; [|discriminate].
  split; auto.
  destruct (Matches_caps_sub HM _ E) as [(a & b & Ea) | Hl']; [|discriminate].
  simpl in Ea. exists (pre ++ a), b. rewrite Ea, <- app_assoc. reflexivity.
Qed.

Lemma grp_lang_none r n v : no_grp r = true -> ~ grp_lang r n v.
Proof.
  induction r; simpl; intros Hn H; auto; try discriminate.
  - apply andb_true_iff in Hn. destruct Hn.
    destruct H; [eapply IHr1 | eapply IHr2]; eauto.
  - apply andb_true_iff in Hn. destruct Hn.
    destruct H; [eapply IHr1 | eapply IHr2]; eauto.
Qed.

Ltac break :=
  repeat match goal with
    | H : False |- _ => destruct H
    | H : _ /\ _ |- _ => destruct H
    | H : exists _, _ |- _ => destruct H
    | H : _ \/ _ |- _ => destruct H
    | H : grp_lang _ _ _ |- _ =>
        exfalso; revert H; apply grp_lang_none; reflexivity
    | H : S _ = S _ |- _ => injection H as H
    | H : O = S _ |- _ => discriminate H
    | H : S _ = O |- _ => discriminate H
    end.

Lemma ci_char a c :
  Ascii.eqb (lower_char c) (lower_char a) = true -> lower_char c = lower_char a.
Proof. apply Ascii.eqb_eq. Qed.

Lemma nonempty_length {B} (l : list B) : 1 <= length l -> l <> [].
Proof. destruct l; simpl; [lia | discriminate]. Qed.

Lemma num_re_text v :
  lang num_re v ->
  exists ip fp, v = decimal_text ip fp /\ ip <> [] /\
                all_in is_digit ip /\ all_in is_digit fp.
Proof.
  cbv [num_re seqs lit_i lits L list_ascii_of_string Opt Plus chr].
  cbn [lang].
  intros (w1 & w2 & -> & (Hd1 & Hl1 & _) &
          [(w3 & w4 & -> & (c & -> & Hc) & Hd4 & Hl4 & _) | ->]).
  - exists w1, w4. apply dot_ci, is_chr_eq in Hc. subst c.
    split; [|split; [apply nonempty_length; auto | auto]].
    unfold decimal_text. destruct w4; simpl in *; [lia | reflexivity].
  - exists w1, []. unfold decimal_text.
    split; [reflexivity|]. split; [apply nonempty_length; auto|].
    split; [auto | constructor].
Qed.

Lemma unit_re_text u : lang unit_re u -> In (lower u) UNIT_TEXTS.
Proof.
  cbv [unit_re seqs alts lit_i lits L list_ascii_of_string Opt chr].
  cbn [lang]. intros H. break; subst; cbn [lower map app];
  repeat match goal with
         | H : Ascii.eqb (lower_char _) (lower_char _) = true |- _ =>
             apply ci_char in H; rewrite H; clear H
         end; vm_compute; tauto.
Qed.

Lemma power_groups t mo :
  search power_pat t = Some mo ->
  exists ip fp u,
    group mo NUM = Some (decimal_text ip fp) /\ ip <> [] /\
    all_in is_digit ip /\ all_in is_digit fp /\
    group mo UNIT = Some u /\ In (lower u) UNIT_TEXTS.
Proof.
  intros H.
  destruct (@search_group _ _ _ NUM H eq_refl) as (v & Hv & Lv & _).
  destruct (@search_group _ _ _ UNIT H eq_refl) as (u & Hu & Lu & _).
  cbv [power_pat seqs NUM UNIT] in Lv, Lu. cbn [grp_lang] in Lv, Lu.
  destruct Lv as [[[_ Lv] | Lv] | Lv]; [| break | break].
  destruct Lu as [Lu | [Lu | [[[_ Lu] | Lu] | Lu]]]; try solve [break].
  apply num_re_text in Lv. destruct Lv as (ip & fp & -> & ? & ? & ?).
  apply unit_re_text in Lu.
  exists ip, fp, u. repeat split; auto.
Qed.

Lemma digits_group r t mo :
  search r t = Some mo -> grp_set r 1 = true ->
  (forall v, grp_lang r 1 v -> lang (Plus is_digit) v) ->
  exists ds, group mo 1 = Some ds /\ ds <> [] /\ all_in is_digit ds.
Proof.
  intros H Hs Hl.
  destruct (@search_group _ _ _ 1 H Hs) as (v & Hv & Lv & _).
  apply Hl in Lv. destruct Lv as (Hd & Hn & _).
  exists v. repeat split; auto. apply nonempty_length; auto.
Qed.

Lemma power_word_group t mo :
  search power_word_pat t = Some mo ->
  exists ds, group mo 1 = Some ds /\ ds <> [] /\ all_in is_digit ds.
Proof.
  intros H. apply (@digits_group _ _ _ H); [reflexivity|].
  intros v. cbv [power_word_pat seqs]. cbn [grp_lang].
  intros Lv. break. auto.
Qed.

Lemma star_digit_group t mo :
  search star_digit_pat t = Some mo ->
  exists ds, group mo 1 = Some ds /\ ds <> [] /\ all_in is_digit ds.
Proof.
  intros H. apply (@digits_group _ _ _ H); [reflexivity|].
  intros v. cbv [star_digit_pat star_tail seqs]. cbn [grp_lang].
  intros Lv. break. auto.
Qed.

Lemma rating_group t mo :
  search rating_pat t = Some mo ->
  exists ds, group mo 1 = Some ds /\ ds <> [] /\ all_in is_digit ds.
Proof.
  intros H. apply (@digits_group _ _ _ H); [reflexivity|].
  intros v. cbv [rating_pat seqs]. cbn [grp_lang].
  intros Lv. break. auto.
Qed.

(** *** Literals and whole words *)

Lemma lang_chr c v : lang (chr false c) v -> v = [c].
Proof.
  simpl. intros (x & -> & Hx). apply is_chr_eq in Hx. subst. reflexivity.
Qed.

Lemma lang_lits : forall w v, lang (lits false w) v -> v = w.
Proof.
  induction w as [|c w IH]; intros v H.
  - exact H.
  - destruct w as [|a w].
    + apply lang_chr; auto.
    + change (lits false (c :: a :: w))
        with (Seq (chr false c) (lits false (a :: w))) in H.
      destruct H as (w1 & w2 & -> & H1 & H2).
      apply lang_chr in H1. apply IH in H2. subst. reflexivity.
Qed.

Lemma lang_alts_lits : forall ws v,
    ws <> [] -> lang (alts (map (lits false) ws)) v -> In v ws.
Proof.
  induction ws as [|w ws IH]; intros v Hne H; [congruence|].
  destruct ws as [|w' ws].
  - left. symmetry. apply lang_lits; auto.
  - change (alts (map (lits false) (w :: w' :: ws)))
      with (Alt (lits false w) (alts (map (lits false) (w' :: ws)))) in H.
    destruct H as [H | H].
    + left. symmetry. apply lang_lits; auto.
    + right. apply IH; [discriminate | auto].
Qed.

Lemma no_grp_lits ci : forall w, no_grp (lits ci w) = true.
Proof.
  induction w as [|c w IH]; [reflexivity|].
  destruct w as [|a w].
  - unfold lits, chr. destruct ci; reflexivity.
  - change (lits ci (c :: a :: w)) with (Seq (chr ci c) (lits ci (a :: w))).
    cbn [no_grp]. rewrite IH. unfold chr. destruct ci; reflexivity.
Qed.

Lemma Matches_no_grp r st st' :
  Matches r st st' -> no_grp r = true -> caps st' = caps st.
Proof.
  induction 1; simpl; intros Hn; auto; try discriminate.
  - apply andb_true_iff in Hn. destruct Hn.
    rewrite IHMatches2, IHMatches1; auto.
  - apply andb_true_iff in Hn. destruct Hn. auto.
  - apply andb_true_iff in Hn. destruct Hn. auto.
Qed.

(** A literal reads itself and nothing else. *)
Lemma Matches_lits_inv w st st' :
  Matches (lits false w) st st' ->
  rest st = w ++ rest st' /\ prev st' = adv (prev st) w /\
  caps st' = caps st.
Proof.
  intros H. destruct (Matches_rest H) as (v & E & P & Lv).
  apply lang_lits in Lv. subst v.
  repeat split; auto. apply (Matches_no_grp H). apply no_grp_lits.
Qed.

Lemma Matches_lits : forall w pv s cs,
    Matches (lits false w) (MState pv (w ++ s) cs) (MState (adv pv w) s cs).
Proof.
  induction w as [|c w IH]; intros pv s cs.
  - constructor.
  - destruct w as [|a w].
    + simpl. constructor. apply Ascii.eqb_refl.
    + change (lits false (c :: a :: w))
        with (Seq (chr false c) (lits false (a :: w))).
      econstructor.
      * simpl. constructor. apply Ascii.eqb_refl.
      * apply IH.
Qed.

Lemma Matches_seq_inv r1 r2 st st' :
  Matches (Seq r1 r2) st st' ->
  exists st1, Matches r1 st st1 /\ Matches r2 st1 st'.
Proof. inversion 1; subst; eauto. Qed.

Lemma Matches_bnd_inv st st' :
  Matches Bnd st st' -> st' = st /\ at_boundary st = true.
Proof. inversion 1; subst; auto. Qed.

(** [\bw\b] matches at a position exactly when [w] stands there between
    two word boundaries. *)
Lemma whole_word_matches w pre post st' :
  matches_at (whole_word w) pre post st' <->
  exists post',
    post = w ++ post' /\ st' = MState (adv None (pre ++ w)) post' [] /\
    xorb (is_word_opt (adv None pre)) (is_word_opt (hd_error post)) = true /\
    xorb (is_word_opt (adv None (pre ++ w))) (is_word_opt (hd_error post'))
    = true.
Proof.
  unfold matches_at, whole_word. cbn [seqs]. split.
  - intros H.
    apply Matches_seq_inv in H. destruct H as (st1 & H1 & H).
    apply Matches_seq_inv in H. destruct H as (st2 & H2 & H3).
    apply Matches_bnd_inv in H1. destruct H1 as [-> B1].
    apply Matches_bnd_inv in H3. destruct H3 as [-> B3].
    apply Matches_lits_inv in H2. destruct H2 as (E & P & C).
    destruct st2 as [pv' s' cs']. simpl in *. subst.
    exists s'. rewrite adv_app. unfold at_boundary in *; simpl in *.
    repeat split; auto.
  - intros (post' & -> & -> & B1 & B2).
    econstructor; [constructor; exact B1|].
    econstructor; [apply Matches_lits|].
    rewrite adv_app in *. constructor. exact B2.
Qed.

Lemma hd_error_app_wordy w post :
  is_word_opt (hd_error w) = true ->
  is_word_opt (hd_error (w ++ post)) = true.
Proof. destruct w; simpl; [discriminate | auto]. Qed.

Lemma adv_app_wordy pv w :
  is_word_opt (adv None w) = true -> adv pv w = adv None w.
Proof.
  unfold adv. destruct w as [|c w]; simpl; [discriminate|]. auto.
Qed.

(** [re.search] finds [\bw\b] exactly when [w] occurs as a whole word. *)
Lemma search_whole_word w t :
  wordy w -> (is_some (search (whole_word w) t) = true <-> whole_word_in w t).
Proof.
  intros [Hh Hl]. split.
  - destruct (search (whole_word w) t) as [mo|] eqn:E; [|discriminate].
    intros _. apply search_some in E.
    destruct E as (pre & post & st' & -> & HM & _).
    apply whole_word_matches in HM.
    destruct HM as (post' & -> & _ & B1 & B2).
    exists pre, post'. split; auto.
    rewrite hd_error_app_wordy in B1 by auto.
    rewrite adv_app, (@adv_app_wordy (adv None pre) w Hl), Hl in B2.
    destruct (is_word_opt (adv None pre)), (is_word_opt (hd_error post'));
      simpl in *; auto; discriminate.
  - intros (pre & post & -> & B1 & B2).
    destruct (search (whole_word w) (pre ++ w ++ post)) eqn:E; auto.
    exfalso. eapply search_none in E; [apply E|reflexivity].
    apply whole_word_matches. exists post. split; auto. split; auto.
    rewrite hd_error_app_wordy by auto.
    rewrite adv_app, (@adv_app_wordy (adv None pre) w Hl), Hl, B1, B2.
    auto.
Qed.

(** *** [for] loops *)

Lemma for_each_find {X B} (p : X -> bool) (g : X -> B) body :
  (forall x, body x = Ok (if p x then Some (g x) else None)) ->
  forall l, for_each l body = Ok (option_map g (find p l)).
Proof.
  intros Hb. induction l as [|x l IH]; simpl; auto.
  rewrite Hb. simpl. destruct (p x); auto.
Qed.

Lemma find_first {X} (p : X -> bool) : forall l x,
    find p l = Some x <->
    first_with (fun y => p y = true) l x.
Proof.
  induction l as [|y l IH]; intros x; simpl.
  - split; [discriminate|]. intros (l1 & l2 & E & _).
    destruct l1; discriminate.
  - destruct (p y) eqn:Hy; split.
    + intros H; inversion H; subst. exists [], l. auto.
    + intros (l1 & l2 & E & Hx & Hl1). destruct l1 as [|z l1].
      * inversion E; subst; auto.
      * inversion E; subst. inversion Hl1; subst. congruence.
    + intros H. apply IH in H. destruct H as (l1 & l2 & -> & Hx & Hl1).
      exists (y :: l1), l2. repeat split; auto.
      constructor; auto. congruence.
    + intros (l1 & l2 & E & Hx & Hl1). destruct l1 as [|z l1].
      * inversion E; subst. congruence.
      * inversion E; subst. inversion Hl1; subst. apply IH.
        exists l1, l2. auto.
Qed.

Lemma find_none_iff {X} (p : X -> bool) l :
  find p l = None <-> Forall (fun y => p y = false) l.
Proof.
  induction l as [|y l IH]; simpl.
  - split; auto.
  - destruct (p y) eqn:Hy; split; intros H.
    + discriminate.
    + inversion H; congruence.
    + constructor; auto. apply IH; auto.
    + inversion H; subst. apply IH; auto.
Qed.

(** *** [_extract_power_watts] *)

Lemma finditer_search r t :
  match finditer r t with
  | mo :: _ => search r t = Some mo
  | [] => search r t = None
  end.
Proof. rewrite <- finditer_hd. destruct (finditer r t); reflexivity. Qed.

Lemma unit_kilo u :
  In u UNIT_TEXTS ->
  startswith (L "kw") u || startswith (L "kilo") u = startswith (L "k") u.
Proof.
  intros H. repeat (destruct H as [<-|H]; [reflexivity|]). destruct H.
Qed.

Lemma float_of_str_digits ds :
  ds <> [] -> all_in is_digit ds ->
  float_of_str ds = Ok (decimal_float ds []).
Proof.
  intros Hn Hd.
  pose proof (@float_of_str_decimal ds [] Hn Hd (Forall_nil _)) as H.
  unfold decimal_text in H. rewrite app_nil_r in H. exact H.
Qed.

Lemma extract_power_hit text mo :
  search power_pat (lower text) = Some mo ->
  exists ip fp u,
    group mo NUM = Some (decimal_text ip fp) /\ ip <> [] /\
    all_in is_digit ip /\ all_in is_digit fp /\
    group mo UNIT = Some u /\ In (lower u) UNIT_TEXTS /\
    _extract_power_watts text =
    Ok (opt_of_result (py_round (power_value ip fp u))).
Proof.
  intros H. destruct (power_groups _ H) as (ip & fp & u & Hn & Hip & Hd & Hf & Hu & Hin).
  exists ip, fp, u. repeat (split; [assumption|]).
  unfold _extract_power_watts.
  pose proof (finditer_search power_pat (lower text)) as F.
  destruct (finditer power_pat (lower text)) as [|m0 l]; [congruence|].
  assert (m0 = mo) by congruence. subst m0.
  rewrite Hn, Hu. cbn [of_opt py_float attr bind].
  rewrite float_of_str_decimal by auto. cbn [bind].
  unfold power_value.
  destruct (startswith (L "kw") (lower u) || startswith (L "kilo") (lower u));
    apply to_int_safe_float.
Qed.

Lemma extract_power_miss text :
  search power_pat (lower text) = None ->
  _extract_power_watts text =
  match search power_word_pat (lower text) with
  | Some m2 => _to_int_safe (of_opt (group m2 1))
  | None => Ok None
  end.
Proof.
  intros H. unfold _extract_power_watts.
  pose proof (finditer_search power_pat (lower text)) as F.
  destruct (finditer power_pat (lower text)) as [|m0 l]; [|congruence].
  reflexivity.
Qed.

Lemma extract_power_total text : exists o, _extract_power_watts text = Ok o.
Proof.
  destruct (search power_pat (lower text)) as [mo|] eqn:E.
  - destruct (extract_power_hit _ E) as (ip & fp & u & _ & _ & _ & _ & _ & _ & H).
    eauto.
  - rewrite (extract_power_miss _ E).
    destruct (search power_word_pat (lower text)); eauto.
    apply to_int_safe_total.
Qed.

Lemma power_value_nonneg ip fp u : fnonneg (power_value ip fp u).
Proof.
  unfold power_value. destruct (_ || _).
  - apply float_mul_nonneg, decimal_float_nonneg.
  - apply decimal_float_nonneg.
Qed.

Lemma opt_round_nonneg f z :
  fnonneg f -> opt_of_result (py_round f) = Some z -> (0 <= z)%Z.
Proof.
  intros Hf H. destruct (py_round f) eqn:E; [|discriminate].
  inversion H; subst. eapply py_round_nonneg; eauto.
Qed.

Lemma to_int_safe_digits ds :
  ds <> [] -> all_in is_digit ds ->
  _to_int_safe (VStr ds) = Ok (opt_of_result (py_round (decimal_float ds []))).
Proof.
  intros Hn Hd. rewrite to_int_safe_str, float_of_str_digits by auto.
  reflexivity.
Qed.

Lemma to_int_safe_digits_nonneg ds z :
  ds <> [] -> all_in is_digit ds ->
  _to_int_safe (VStr ds) = Ok (Some z) -> (0 <= z)%Z.
Proof.
  intros Hn Hd H. rewrite to_int_safe_digits in H by auto.
  apply Ok_inj in H. eapply opt_round_nonneg; eauto.
  apply decimal_float_nonneg.
Qed.

Lemma extract_power_nonneg text z :
  _extract_power_watts text = Ok (Some z) -> (0 <= z)%Z.
Proof.
  destruct (search power_pat (lower text)) as [mo|] eqn:E.
  - destruct (extract_power_hit _ E) as (ip & fp & u & _ & _ & _ & _ & _ & _ & H).
    rewrite H. intros H'. apply Ok_inj in H'.
    eapply opt_round_nonneg; eauto. apply power_value_nonneg.
  - rewrite (extract_power_miss _ E).
    destruct (search power_word_pat (lower text)) as [m2|] eqn:E2;
      [|discriminate].
    destruct (power_word_group _ E2) as (ds & -> & Hn & Hd).
    apply to_int_safe_digits_nonneg; auto.
Qed.

(** *** [_extract_rating] *)

Lemma get_in {V} (d : list (str * V)) k v :
  get d k = Some v -> In v (map snd d).
Proof.
  induction d as [|[k' v'] d IH]; simpl; [discriminate|].
  destruct (str_eqb k' k); [intros H; inversion H; auto | auto].
Qed.

Lemma number_words_range w z :
  get NUMBER_WORDS w = Some z -> (0 <= z <= 10)%Z.
Proof.
  intros H. apply get_in in H. simpl in H.
  repeat (destruct H as [<-|H]; [lia|]). destruct H.
Qed.

Lemma extract_rating_total text : exists o, _extract_rating text = Ok o.
Proof.
  unfold _extract_rating.
  destruct (search star_digit_pat (lower text)); [apply to_int_safe_total|].
  destruct (search star_word_pat (lower text)); eauto.
  destruct (search rating_pat (lower text)); eauto.
  apply to_int_safe_total.
Qed.

Lemma extract_rating_nonneg text z :
  _extract_rating text = Ok (Some z) -> (0 <= z)%Z.
Proof.
  unfold _extract_rating.
  destruct (search star_digit_pat (lower text)) as [mo|] eqn:E1.
  { destruct (star_digit_group _ E1) as (ds & -> & Hn & Hd).
    apply to_int_safe_digits_nonneg; auto. }
  destruct (search star_word_pat (lower text)) as [m2|] eqn:E2.
  { intros H. apply Ok_inj in H. destruct (group m2 1); [|discriminate].
    apply number_words_range in H. lia. }
  destruct (search rating_pat (lower text)) as [m3|] eqn:E3; [|discriminate].
  destruct (rating_group _ E3) as (ds & -> & Hn & Hd).
  apply to_int_safe_digits_nonneg; auto.
Qed.

(** *** [_extract_type] and [_extract_location] *)

Lemma type_group t mo :
  search type_pat t = Some mo ->
  exists g, group mo 1 = Some g /\ g <> [] /\ all_in is_alpha g /\
            exists a b, t = a ++ g ++ b.
Proof.
  intros H. destruct (@search_group _ _ _ 1 H eq_refl) as (v & Hv & Lv & Hs).
  cbv [type_pat seqs] in Lv. cbn [grp_lang] in Lv.
  assert (L1 : lang (Plus is_alpha) v) by (break; auto).
  destruct L1 as (Ha & Hn & _).
  exists v. repeat split; auto. apply nonempty_length; auto.
Qed.

Lemma prep_group t mo :
  search prep_pat t = Some mo ->
  exists g, group mo 1 = Some g /\ lang place_re g.
Proof.
  intros H. destruct (@search_group _ _ _ 1 H eq_refl) as (v & Hv & Lv & Hs).
  cbv [prep_pat seqs] in Lv. cbn [grp_lang] in Lv.
  exists v. split; auto. break; auto.
Qed.

Lemma keyword_loop t kws :
  for_each kws (fun kw =>
    match search (whole_word kw) t with
    | Some _ => Ok (Some kw)
    | None => Ok None
    end) =
  Ok (find (fun kw => is_some (search (whole_word kw) t)) kws).
Proof.
  rewrite for_each_find
    with (p := fun kw => is_some (search (whole_word kw) t)) (g := fun kw => kw).
  - destruct (find _ kws); reflexivity.
  - intros kw. destruct (search (whole_word kw) t); reflexivity.
Qed.

Lemma extract_type_total text : exists o, _extract_type text = Ok o.
Proof.
  unfold _extract_type.
  destruct (search type_pat (lower text)) as [mo|] eqn:E.
  - destruct (type_group _ E) as (g & -> & _). simpl. eauto.
  - rewrite keyword_loop. eauto.
Qed.

Lemma extract_location_total text : exists o, _extract_location text = Ok o.
Proof.
  unfold _extract_location. rewrite keyword_loop. cbn [bind].
  destruct (find _ KNOWN_LOCATIONS); eauto.
  destruct (search prep_pat (lower text)) as [mo|] eqn:E; eauto.
  destruct (prep_group _ E) as (g & -> & _). simpl. eauto.
Qed.

(** *** [_extract_device_name] *)

Lemma for_each_ok {X B} (body : X -> result (option B)) : forall l,
    (forall x, In x l -> exists o, body x = Ok o) ->
    exists o, for_each l body = Ok o.
Proof.
  induction l as [|x l IH]; intros H; simpl; eauto.
  destruct (H x (or_introl eq_refl)) as (o & ->). simpl.
  destruct o; eauto. apply IH. intros; apply H; right; auto.
Qed.

Lemma index_ok {X} (ws : list X) i :
  i < length ws -> exists w, index ws i = Ok w /\ nth_error ws i = Some w.
Proof.
  intros H. unfold index. destruct (nth_error ws i) eqn:E; eauto.
  apply nth_error_None in E. lia.
Qed.

Lemma range_in n i : In i (range n) <-> (Z.of_nat i < n)%Z.
Proof. unfold range. rewrite in_seq. lia. Qed.

Lemma extract_device_name_total text :
  exists o, _extract_device_name text = Ok o.
Proof.
  unfold _extract_device_name. apply for_each_ok.
  intros i Hi. apply range_in in Hi.
  set (words := findall (Plus is_az09) (lower text)) in *.
  destruct (@index_ok _ words i ltac:(lia)) as (w0 & -> & _).
  destruct (@index_ok _ words (i + 1) ltac:(lia)) as (w1 & -> & _).
  cbn [bind]. apply for_each_ok. intros kw _.
  destruct (_ || _); eauto.
Qed.

(** *** [parse_details] *)

Lemma parse_details_total text : exists d, parse_details text = Ok d.
Proof.
  unfold parse_details.
  destruct (extract_device_name_total text) as (n & ->).
  destruct (extract_type_total text) as (ty & ->).
  destruct (extract_power_total text) as (pw & ->).
  destruct (extract_rating_total text) as (rt & ->).
  destruct (extract_location_total text) as (loc & ->).
  simpl. eauto.
Qed.

Lemma parse_details_fields text d :
  parse_details text = Ok d ->
  _extract_device_name text = Ok (name d) /\
  _extract_type text = Ok (type d) /\
  _extract_power_watts text = Ok (powerwatts d) /\
  _extract_rating text = Ok (rating d) /\
  _extract_location text = Ok (location d).
Proof.
  unfold parse_details.
  destruct (extract_device_name_total text) as (n & ->).
  destruct (extract_type_total text) as (ty & ->).
  destruct (extract_power_total text) as (pw & ->).
  destruct (extract_rating_total text) as (rt & ->).
  destruct (extract_location_total text) as (loc & ->).
  simpl. intros H. apply Ok_inj in H. subst d. simpl. auto.
Qed.

(** *** Keyword lists searched in list order *)

Lemma first_with_ext {X} (P Q : X -> Prop) l x :
  (forall y, In y l -> (P y <-> Q y)) ->
  first_with P l x -> first_with Q l x.
Proof.
  intros H (l1 & l2 & -> & Hx & Hl1). exists l1, l2. split; auto. split.
  - apply H; auto. apply in_or_app. right. left. reflexivity.
  - rewrite Forall_forall in *. intros y Hy Hq. apply (Hl1 y Hy).
    apply H; auto. apply in_or_app. auto.
Qed.

Lemma keyword_find t kws :
  Forall wordy kws ->
  (forall kw, first_with (fun k => whole_word_in k t) kws kw ->
              find (fun k => is_some (search (whole_word k) t)) kws = Some kw)
  /\ (Forall (fun k => ~ whole_word_in k t) kws ->
      find (fun k => is_some (search (whole_word k) t)) kws = None).
Proof.
  intros Hw. rewrite Forall_forall in Hw. split.
  - intros kw H. apply find_first. eapply first_with_ext; [|exact H].
    intros y Hy. symmetry. apply search_whole_word. auto.
  - intros H. apply find_none_iff. rewrite Forall_forall in *.
    intros y Hy. destruct (is_some _) eqn:E; auto.
    apply search_whole_word in E; auto. elim (H y Hy E).
Qed.

(** The same, read from right to left: what the loop finds is what
    occurs. *)
Lemma keyword_found t kws :
  Forall wordy kws ->
  (forall kw,
      find (fun k => is_some (search (whole_word k) t)) kws = Some kw ->
      first_with (fun k => whole_word_in k t) kws kw) /\
  (find (fun k => is_some (search (whole_word k) t)) kws = None ->
   Forall (fun k => ~ whole_word_in k t) kws).
Proof.
  intros Hw. rewrite Forall_forall in Hw. split.
  - intros kw H. apply find_first in H. eapply first_with_ext; [|exact H].
    intros y Hy. apply search_whole_word. auto.
  - intros H. apply find_none_iff in H. rewrite Forall_forall in *.
    intros y Hy Hocc. apply search_whole_word in Hocc; auto.
    rewrite (H y Hy) in Hocc. discriminate.
Qed.

Lemma lower_char_alpha c :
  is_alpha (lower_char c) = true -> is_az (lower_char c) = true.
Proof. intros H. by_chars c H. Qed.

Lemma alpha_not_space c : is_alpha c = true -> is_space c = false.
Proof. intros H. by_chars c H. Qed.

(** The letters of a piece of a lower-cased text are lower-case. *)
Lemma alpha_in_lower text g a b :
  lower text = a ++ g ++ b -> all_in is_alpha g -> all_in is_az g.
Proof.
  intros E Hg. unfold all_in in *. rewrite Forall_forall in *.
  intros c Hc.
  assert (Hin : In c (lower text)).
  { rewrite E. apply in_or_app. right. apply in_or_app. auto. }
  unfold lower in Hin. apply in_map_iff in Hin.
  destruct Hin as (c0 & <- & _). apply lower_char_alpha; auto.
Qed.

Lemma extract_type_explicit text mo :
  search type_pat (lower text) = Some mo ->
  exists g, group mo 1 = Some g /\ g <> [] /\ all_in is_az g /\
            _extract_type text = Ok (Some g).
Proof.
  intros H. destruct (type_group _ H) as (g & Hg & Hn & Ha & a & b & E).
  exists g. repeat split; auto.
  - eapply alpha_in_lower; eauto.
  - unfold _extract_type. rewrite H, Hg. cbn [attr bind].
    unfold strip. rewrite strip_by_id with (q := is_alpha); auto.
    apply alpha_not_space.
Qed.

Lemma type_keywords_wordy : Forall wordy TYPE_KEYWORDS.
Proof. repeat constructor. Qed.

Lemma known_locations_wordy : Forall wordy KNOWN_LOCATIONS.
Proof. repeat constructor. Qed.

(** *** Values of the numeric fields *)

Lemma to_int_safe_small ds :
  ds <> [] -> all_in is_digit ds -> (digits_val ds < 2 ^ 53)%Z ->
  _to_int_safe (VStr ds) = Ok (Some (digits_val ds)).
Proof.
  intros Hn Hd Hv. rewrite to_int_safe_digits by auto.
  rewrite round_decimal_exact by auto. reflexivity.
Qed.

Lemma str_eqb_eq a : forall b, str_eqb a b = true <-> a = b.
Proof.
  induction a as [|x a IH]; intros [|y b]; simpl; split; intros H;
    try discriminate; auto.
  - apply andb_true_iff in H. destruct H as [H1 H2].
    apply Ascii.eqb_eq in H1. apply IH in H2. subst; auto.
  - inversion H; subst. rewrite Ascii.eqb_refl. simpl. apply IH. auto.
Qed.

Lemma get_of_key {V} (d : list (str * V)) w :
  In w (keys d) -> exists z, get d w = Some z /\ In (w, z) d.
Proof.
  induction d as [|[k v] d IH]; simpl; intros H; [destruct H|].
  destruct (str_eqb k w) eqn:E.
  - apply str_eqb_eq in E. subst. eauto.
  - destruct H as [H | H].
    + subst. rewrite (proj2 (str_eqb_eq w w) eq_refl) in E. discriminate.
    + destruct (IH H) as (z & Hz & Hin). eauto.
Qed.

Lemma star_word_group t mo :
  search star_word_pat t = Some mo ->
  exists w z, group mo 1 = Some w /\ get NUMBER_WORDS w = Some z /\
              In (w, z) NUMBER_WORDS.
Proof.
  intros H. destruct (@search_group _ _ _ 1 H eq_refl) as (v & Hv & Lv & _).
  cbv [star_word_pat star_tail seqs] in Lv. cbn [grp_lang] in Lv.
  assert (Lw : lang number_word_re v) by (break; auto).
  apply lang_alts_lits in Lw; [|discriminate].
  destruct (get_of_key NUMBER_WORDS v Lw) as (z & Hz & Hin).
  exists v, z. auto.
Qed.

(** *** The fallback of the power extractor *)

Lemma extract_power_fallback text m2 :
  search power_pat (lower text) = None ->
  search power_word_pat (lower text) = Some m2 ->
  exists ds,
    group m2 1 = Some ds /\ ds <> [] /\ all_in is_digit ds /\
    _extract_power_watts text = _to_int_safe (VStr ds).
Proof.
  intros H1 H2. destruct (power_word_group _ H2) as (ds & Hg & Hn & Hd).
  exists ds. repeat (split; [assumption|]).
  rewrite (extract_power_miss _ H1), H2, Hg. reflexivity.
Qed.

(** *** Slices and windows *)

Lemma slice_S {X} (x : X) l a b : slice (x :: l) (S a) (S b) = slice l a b.
Proof. reflexivity. Qed.

Lemma slice_cons {X} (l : list X) : forall a b x,
    nth_error l a = Some x -> a < b -> slice l a b = x :: slice l (S a) b.
Proof.
  induction l as [|y l IH]; intros a b x Hx Hab.
  - destruct a; discriminate.
  - destruct b as [|b]; [lia|]. destruct a as [|a].
    + inversion Hx; subst. reflexivity.
    + rewrite slice_S. simpl in Hx. rewrite (IH a b x Hx) by lia.
      reflexivity.
Qed.

Lemma slice_empty {X} (l : list X) a : slice l a a = [].
Proof.
  unfold slice. apply length_zero_iff_nil.
  rewrite length_skipn, length_firstn. lia.
Qed.

Lemma slice_length {X} (l : list X) a b : length (slice l a b) <= b - a.
Proof. unfold slice. rewrite length_skipn, length_firstn. lia. Qed.

Lemma slice_past {X} (l : list X) a b : length l <= a -> slice l a b = [].
Proof.
  intros H. unfold slice. apply length_zero_iff_nil.
  rewrite length_skipn, length_firstn. lia.
Qed.

Lemma window_2 words i w0 w1 :
  nth_error words i = Some w0 -> nth_error words (i + 1) = Some w1 ->
  window words i 2 = w0 ++ L " " ++ w1.
Proof.
  intros H0 H1. unfold window.
  rewrite (@slice_cons _ words i _ w0 H0) by lia.
  replace (S i) with (i + 1) by lia.
  rewrite (@slice_cons _ words (i + 1) _ w1 H1) by lia.
  replace (S (i + 1)) with (i + 2) by lia.
  rewrite slice_empty. reflexivity.
Qed.

Lemma window_3 words i w0 w1 :
  nth_error words i = Some w0 -> nth_error words (i + 1) = Some w1 ->
  window words i 3 =
  window words i 2 ++
  match nth_error words (i + 2) with
  | Some w2 => L " " ++ w2
  | None => []
  end.
Proof.
  intros H0 H1. rewrite (@window_2 words i w0 w1 H0 H1). unfold window.
  rewrite (@slice_cons _ words i _ w0 H0) by lia.
  replace (S i) with (i + 1) by lia.
  rewrite (@slice_cons _ words (i + 1) _ w1 H1) by lia.
  replace (S (i + 1)) with (i + 2) by lia.
  destruct (nth_error words (i + 2)) as [w2|] eqn:H2.
  - rewrite (@slice_cons _ words (i + 2) _ w2 H2) by lia.
    replace (S (i + 2)) with (i + 3) by lia. rewrite slice_empty.
    cbn [join]. rewrite <- !app_assoc. reflexivity.
  - apply nth_error_None in H2. rewrite slice_past by lia.
    cbn [join]. rewrite app_nil_r. reflexivity.
Qed.

Lemma startswith_app k : forall s s',
    startswith k s = true -> startswith k (s ++ s') = true.
Proof.
  induction k as [|a k IH]; intros [|c s] s' H; simpl in *; auto;
    try discriminate.
  apply andb_true_iff in H. destruct H as [H1 H2].
  rewrite H1. simpl. auto.
Qed.

Lemma contains_app k : forall s s',
    contains k s = true -> contains k (s ++ s') = true.
Proof.
  induction s as [|c s IH]; intros s' H.
  - simpl in H. rewrite orb_false_r in H. destruct k; [|discriminate].
    destruct s'; reflexivity.
  - cbn [contains] in H. change ((c :: s) ++ s') with (c :: (s ++ s')).
    cbn [contains]. apply orb_true_iff in H. apply orb_true_iff.
    destruct H as [H | H].
    + left. apply (@startswith_app k (c :: s) s'). exact H.
    + right. apply IH; auto.
Qed.

(** *** The loops of [_extract_device_name] *)

Lemma for_each_find_in {X B} (p : X -> bool) (g : X -> B) body : forall l,
    (forall x, In x l -> body x = Ok (if p x then Some (g x) else None)) ->
    for_each l body = Ok (option_map g (find p l)).
Proof.
  induction l as [|x l IH]; intros Hb; simpl; auto.
  rewrite Hb by (left; reflexivity). simpl. destruct (p x); auto.
  apply IH. intros; apply Hb; right; auto.
Qed.

Lemma for_each_exists {X B} (c : X -> bool) (b : B) : forall l,
    for_each l (fun x => if c x then Ok (Some b) else Ok None) =
    Ok (if existsb c l then Some b else None).
Proof.
  induction l as [|x l IH]; simpl; auto.
  destruct (c x); simpl; auto.
Qed.

Lemma find_seq_first (p : nat -> bool) n i :
  i < n -> p i = true -> (forall j, j < i -> p j = false) ->
  find p (seq 0 n) = Some i.
Proof.
  intros Hi Hp Hj. apply find_first.
  exists (seq 0 i), (seq (S i) (n - S i)). split; [|split; auto].
  - replace n with (i + (n - i)) at 1 by lia. rewrite seq_app.
    replace (n - i) with (S (n - S i)) by lia. reflexivity.
  - apply Forall_forall. intros j Hin. apply in_seq in Hin.
    rewrite Hj by lia. discriminate.
Qed.

Lemma find_seq_none (p : nat -> bool) n :
  (forall j, j < n -> p j = false) -> find p (seq 0 n) = None.
Proof.
  intros Hj. apply find_none_iff. apply Forall_forall.
  intros j Hin. apply in_seq in Hin. apply Hj. lia.
Qed.

(** The loop over the window positions: the first position with a hit
    gives the candidate, made of the words from [i - 1] to [i + 2]. *)
Lemma extract_device_name_find text :
  let words := words_of text in
  _extract_device_name text =
  Ok (option_map
        (fun i => strip (join (L " ")
                           (slice words (Nat.max 0 (i - 1)) (i + 3))))
        (find (window_hit words) (seq 0 (length words - 1)))).
Proof.
  intros words. unfold _extract_device_name. fold (words_of text).
  fold words. unfold range.
  replace (Z.to_nat (Z.of_nat (length words) - 1)) with (length words - 1)
    by lia.
  apply for_each_find_in. intros i Hi. apply in_seq in Hi.
  destruct (@index_ok _ words i ltac:(lia)) as (w0 & -> & H0).
  destruct (@index_ok _ words (i + 1) ltac:(lia)) as (w1 & -> & H1).
  cbn [bind]. rewrite for_each_exists.
  unfold window_hit. rewrite (@window_2 words i w0 w1 H0 H1). reflexivity.
Qed.

(** *** The matches of a scan *)

Lemma scan_hits_match r : forall s pv pos skip mo,
    In (Hit mo) (scan r pv s pos skip) ->
    exists b pv' s' pos', match_at r b pv' s' pos' = Some mo.
Proof.
  induction s as [|c s IH]; intros pv pos skip mo Hin.
  - destruct skip as [|sk]; [|destruct Hin].
    cbn [scan] in Hin.
    destruct (match_at r false pv [] pos) as [m0|] eqn:E0; [|destruct Hin].
    destruct (Nat.eqb (m_end m0) (m_start m0)).
    + destruct Hin as [Hin | Hin]; [inversion Hin; subst; eauto|].
      destruct (match_at r true pv [] pos) as [m1|] eqn:E1; [|destruct Hin].
      destruct Hin as [Hin | Hin]; [inversion Hin; subst; eauto|].
      destruct Hin.
    + destruct Hin as [Hin | Hin]; [inversion Hin; subst; eauto|].
      destruct Hin.
  - destruct skip as [|sk]; cbn [scan app] in Hin; [|eapply IH; eauto].
    destruct (match_at r false pv (c :: s) pos) as [m0|] eqn:E0.
    + destruct (Nat.eqb (m_end m0) (m_start m0)).
      * destruct Hin as [Hin | Hin]; [inversion Hin; subst; eauto|].
        destruct (match_at r true pv (c :: s) pos) as [m1|] eqn:E1.
        -- destruct Hin as [Hin | Hin]; [inversion Hin; subst; eauto|].
           eapply IH; eauto.
        -- destruct Hin as [Hin | Hin]; [discriminate|]. eapply IH; eauto.
      * destruct Hin as [Hin | Hin]; [inversion Hin; subst; eauto|].
        eapply IH; eauto.
    + destruct Hin as [Hin | Hin]; [discriminate|]. eapply IH; eauto.
Qed.

Lemma in_hits mo : forall l, In mo (hits l) -> In (Hit mo) l.
Proof.
  induction l as [|[m0|c] l IH]; simpl; intros H; auto.
  destruct H as [-> | H]; auto.
Qed.

(** The text of a match is a word of the pattern. *)
Lemma match_at_text r b pv s pos mo :
  match_at r b pv s pos = Some mo -> lang r (m_text mo).
Proof.
  intros H. apply match_at_some in H. destruct H as (st' & HM & ->).
  destruct (Matches_rest HM) as (w & E & _ & Lw). simpl in E.
  unfold mo_of. cbn [m_text]. rewrite E, firstn_len_app. exact Lw.
Qed.

Lemma findall_lang r t w : In w (findall r t) -> lang r w.
Proof.
  unfold findall, finditer. intros H. apply in_map_iff in H.
  destruct H as (mo & <- & H). apply in_hits in H.
  apply scan_hits_match in H. destruct H as (b & pv & s & pos & H).
  eapply match_at_text; eauto.
Qed.

Lemma words_of_tokens text : Forall is_token (words_of text).
Proof.
  apply Forall_forall. intros w H. apply findall_lang in H.
  destruct H as (Ha & Hn & _). split.
  - apply nonempty_length; auto.
  - eapply Forall_impl; [|exact Ha]. cbv beta. intros c Hc.
    rewrite az09_not_space; auto.
Qed.

(** *** [strip] on text without outer white space *)

Lemma hd_error_rev (s : str) : hd_error (rev s) = adv None s.
Proof.
  induction s as [|c s IH] using rev_ind; [reflexivity|].
  rewrite rev_app_distr, adv_app. reflexivity.
Qed.

Lemma adv_nonempty pv (s : str) : s <> [] -> adv pv s = adv None s.
Proof. destruct s; [congruence | reflexivity]. Qed.

Lemma adv_in (s : str) c : adv None s = Some c -> In c s.
Proof.
  induction s as [|x s IH] using rev_ind; [discriminate|].
  rewrite adv_app. simpl. intros H. inversion H; subst.
  apply in_or_app. right. left. reflexivity.
Qed.

Lemma strip_edges s :
  no_space_opt (hd_error s) -> no_space_opt (adv None s) -> strip s = s.
Proof.
  intros Hh Hl. unfold strip, strip_by.
  assert (E : lstrip_by is_space s = s).
  { destruct s as [|c s]; simpl in *; auto. rewrite Hh. reflexivity. }
  rewrite E.
  assert (E' : lstrip_by is_space (rev s) = rev s).
  { rewrite <- hd_error_rev in Hl. destruct (rev s) as [|c r]; simpl in *; auto.
    rewrite Hl. reflexivity. }
  rewrite E'. apply rev_involutive.
Qed.

Lemma token_edges w :
  is_token w -> no_space_opt (hd_error w) /\ no_space_opt (adv None w).
Proof.
  intros [Hn Ha]. unfold all_in in Ha. rewrite Forall_forall in Ha. split.
  - destruct w as [|c w]; simpl; auto.
    apply negb_true_iff. apply Ha. left. reflexivity.
  - destruct (adv None w) as [c|] eqn:E; simpl; auto.
    apply negb_true_iff. apply Ha. apply adv_in. exact E.
Qed.

Lemma join_nonempty sep w ws : w <> [] -> join sep (w :: ws) <> [].
Proof.
  intros Hn. destruct ws; simpl; auto. destruct w; simpl; congruence.
Qed.

Lemma join_edges : forall ws,
    Forall is_token ws ->
    no_space_opt (hd_error (join (L " ") ws)) /\
    no_space_opt (adv None (join (L " ") ws)).
Proof.
  induction ws as [|w ws IH]; intros H; [simpl; auto|].
  inversion H as [|? ? Hw Hws]; subst.
  destruct (token_edges Hw) as [Hh Hl]. destruct ws as [|w' ws].
  - simpl. auto.
  - change (join (L " ") (w :: w' :: ws))
      with (w ++ L " " ++ join (L " ") (w' :: ws)).
    split.
    + destruct Hw as [Hn _]. destruct w; [congruence | exact Hh].
    + rewrite app_assoc, adv_app. rewrite adv_nonempty.
      * apply IH. exact Hws.
      * inversion Hws; subst. apply join_nonempty.
        match goal with T : is_token w' |- _ => destruct T; auto end.
Qed.

Lemma strip_join ws :
  Forall is_token ws -> strip (join (L " ") ws) = join (L " ") ws.
Proof.
  intros H. destruct (join_edges H). apply strip_edges; auto.
Qed.

Lemma Forall_slice {X} (P : X -> Prop) l a b :
  Forall P l -> Forall P (slice l a b).
Proof.
  intros H. unfold slice.
  rewrite <- (firstn_skipn b l) in H. apply Forall_app in H.
  destruct H as [H _].
  rewrite <- (firstn_skipn a (firstn b l)) in H. apply Forall_app in H.
  tauto.
Qed.

(** *** Characters kept by [strip], [sub] with an empty replacement,
    [split] and [join] *)

Lemma all_in_lstrip p q s : all_in q s -> all_in q (lstrip_by p s).
Proof.
  induction 1 as [|c s Hc Hs IH]; simpl; [constructor|].
  destruct (p c); [exact IH | constructor; auto].
Qed.

Lemma all_in_strip q s : all_in q s -> all_in q (strip s).
Proof.
  intros H. unfold strip, strip_by. apply Forall_rev.
  apply all_in_lstrip. apply Forall_rev. apply all_in_lstrip. exact H.
Qed.

Lemma scan_gaps r : forall s pv pos skip c,
    In (Gap c) (scan r pv s pos skip) -> In c s.
Proof.
  induction s as [|x s IH]; intros pv pos skip c Hin.
  - destruct skip as [|sk]; [|destruct Hin].
    cbn [scan] in Hin.
    destruct (match_at r false pv [] pos) as [m0|]; [|destruct Hin].
    destruct (Nat.eqb (m_end m0) (m_start m0)).
    + destruct Hin as [Hin | Hin]; [discriminate|].
      destruct (match_at r true pv [] pos) as [m1|]; [|destruct Hin].
      destruct Hin as [Hin | Hin]; [discriminate | destruct Hin].
    + destruct Hin as [Hin | Hin]; [discriminate | destruct Hin].
  - destruct skip as [|sk]; cbn [scan app] in Hin;
      [|right; eapply IH; eauto].
    destruct (match_at r false pv (x :: s) pos) as [m0|].
    + destruct (Nat.eqb (m_end m0) (m_start m0)).
      * destruct Hin as [Hin | Hin]; [discriminate|].
        destruct (match_at r true pv (x :: s) pos) as [m1|].
        -- destruct Hin as [Hin | Hin]; [discriminate|].
           right; eapply IH; eauto.
        -- destruct Hin as [Hin | Hin].
           ++ inversion Hin; subst. left; reflexivity.
           ++ right; eapply IH; eauto.
      * destruct Hin as [Hin | Hin]; [discriminate|].
        right; eapply IH; eauto.
    + destruct Hin as [Hin | Hin].
      * inversion Hin; subst. left; reflexivity.
      * right; eapply IH; eauto.
Qed.

Lemma all_in_sub q r t : all_in q t -> all_in q (sub r [] t).
Proof.
  intros H. unfold sub, all_in in *. rewrite Forall_forall in *.
  intros c Hc. apply in_flat_map in Hc. destruct Hc as ([mo|x] & Hs & Hx).
  - destruct Hx.
  - destruct Hx as [<- | []]. apply H. eapply scan_gaps; eauto.
Qed.

Lemma rev_word q (cur : str) :
  cur <> [] -> all_in q cur -> all_in (fun c => negb (is_space c)) cur ->
  is_token (rev cur) /\ all_in q (rev cur).
Proof.
  intros Hn Hq Hs. split; [split|].
  - intros E. apply Hn. rewrite <- (rev_involutive cur), E. reflexivity.
  - apply Forall_rev. exact Hs.
  - apply Forall_rev. exact Hq.
Qed.

(** The words of [split]: tokens made of characters of the text. *)
Lemma split_aux_words q : forall s cur,
    all_in q s -> all_in q cur ->
    all_in (fun c => negb (is_space c)) cur ->
    Forall (fun w => is_token w /\ all_in q w) (split_aux cur s).
Proof.
  induction s as [|c s IH]; intros cur Hs Hq Hc.
  - simpl. destruct cur as [|x cur]; constructor; [|constructor].
    apply rev_word; auto. discriminate.
  - inversion Hs; subst. cbn [split_aux].
    destruct (is_space c) eqn:Ec.
    + destruct cur as [|x cur].
      * apply IH; auto.
      * constructor; [apply rev_word; auto; discriminate|].
        apply IH; auto; constructor.
    + apply IH; auto; constructor; auto. rewrite Ec. reflexivity.
Qed.

Lemma split_words q s :
  all_in q s -> Forall (fun w => is_token w /\ all_in q w) (split s).
Proof. intros H. apply split_aux_words; auto; constructor. Qed.

Lemma all_in_join q : forall ws,
    q " "%char = true -> Forall (all_in q) ws -> all_in q (join (L " ") ws).
Proof.
  induction ws as [|w ws IH]; intros Hsp H; [constructor|].
  inversion H; subst. destruct ws as [|w' ws]; [assumption|].
  change (join (L " ") (w :: w' :: ws))
    with (w ++ L " " ++ join (L " ") (w' :: ws)).
  apply Forall_app. split; [assumption|].
  constructor; [exact Hsp|]. apply IH; auto.
Qed.

Lemma split_aux_word : forall w cur s,
    all_in (fun c => negb (is_space c)) w ->
    split_aux cur (w ++ s) = split_aux (rev w ++ cur) s.
Proof.
  induction w as [|c w IH]; intros cur s Hw; [reflexivity|].
  inversion Hw; subst. cbn [app split_aux].
  apply negb_true_iff in H1. rewrite H1.
  rewrite IH by assumption. cbn [rev]. rewrite <- app_assoc. reflexivity.
Qed.

(** [split] gives back the words that [join] put together. *)
Lemma split_join : forall ws,
    Forall is_token ws -> split (join (L " ") ws) = ws.
Proof.
  induction ws as [|w ws IH]; intros H; [reflexivity|].
  inversion H as [|? ? [Hn Hw] Hws]; subst. unfold split in *.
  destruct ws as [|w' ws].
  - cbn [join]. rewrite <- (app_nil_r w) at 1.
    rewrite split_aux_word by assumption. rewrite app_nil_r. cbn [split_aux].
    destruct (rev w) eqn:E.
    + exfalso. apply Hn. rewrite <- (rev_involutive w), E. reflexivity.
    + rewrite <- E, rev_involutive. reflexivity.
  - change (join (L " ") (w :: w' :: ws))
      with (w ++ L " " ++ join (L " ") (w' :: ws)).
    rewrite split_aux_word by assumption. rewrite app_nil_r.
    cbn [L list_ascii_of_string app split_aux].
    change (is_space " ") with true. cbv iota.
    destruct (rev w) eqn:E.
    + exfalso. apply Hn. rewrite <- (rev_involutive w), E. reflexivity.
    + rewrite <- E, rev_involutive. f_equal. apply IH. exact Hws.
Qed.

Lemma lower_az_sp s : all_in is_az_sp s -> lower s = s.
Proof.
  induction 1 as [|c s Hc Hs IH]; [reflexivity|].
  cbn [lower map]. fold (lower s). rewrite IH. f_equal.
  apply Ascii.eqb_eq. apply az_sp_lower. exact Hc.
Qed.

Lemma Forall_firstn {X} (P : X -> Prop) n l :
  Forall P l -> Forall P (firstn n l).
Proof.
  intros H. rewrite <- (firstn_skipn n l) in H. apply Forall_app in H. tauto.
Qed.

(** *** The two stages of [_extract_location] *)

Lemma extract_location_vocab text loc :
  find (fun k => is_some (search (whole_word k) (lower text)))
       KNOWN_LOCATIONS = Some loc ->
  _extract_location text = Ok (Some loc).
Proof.
  intros H. unfold _extract_location. rewrite keyword_loop, H. reflexivity.
Qed.

Lemma place_re_text g :
  lang place_re g -> all_in is_az_sp g /\ 2 <= length g <= 31.
Proof.
  cbv [place_re seqs]. cbn [lang].
  intros (w1 & w2 & -> & (c & -> & Hc) & Hw & Hlo & Hhi).
  simpl in Hhi. split; [|simpl; lia].
  constructor; [|exact Hw]. unfold is_az_sp. rewrite Hc. reflexivity.
Qed.

Lemma extract_location_fallback text :
  find (fun k => is_some (search (whole_word k) (lower text)))
       KNOWN_LOCATIONS = None ->
  (search prep_pat (lower text) = None /\ _extract_location text = Ok None)
  \/ (exists mo g,
        search prep_pat (lower text) = Some mo /\ group mo 1 = Some g /\
        all_in is_az_sp g /\ 2 <= length g <= 31 /\
        _extract_location text = Ok (location_fallback g)).
Proof.
  intros H. unfold _extract_location. rewrite keyword_loop, H. cbn [bind].
  destruct (search prep_pat (lower text)) as [mo|] eqn:E; [right | left; auto].
  destruct (prep_group _ E) as (g & Hg & Lg).
  apply place_re_text in Lg. destruct Lg as [Ha Hl].
  exists mo, g. rewrite Hg. cbn [attr bind]. repeat split; auto; try lia.
Qed.

Lemma location_fallback_ok g :
  all_in is_az_sp g -> location_ok (location_fallback g).
Proof.
  intros Hg. unfold location_fallback. cbv zeta.
  set (c := strip (sub generic_pat [] (strip g))).
  assert (Hc : all_in is_az_sp c).
  { apply all_in_strip, all_in_sub, all_in_strip. exact Hg. }
  pose proof (split_words Hc) as Hw.
  apply (Forall_firstn 3) in Hw.
  set (ws := firstn 3 (split c)) in *.
  assert (Htok : Forall is_token ws).
  { eapply Forall_impl; [|exact Hw]. cbv beta. tauto. }
  assert (Haz : Forall (all_in is_az_sp) ws).
  { eapply Forall_impl; [|exact Hw]. cbv beta. tauto. }
  unfold nonempty_opt. destruct (join (L " ") ws) as [|x l] eqn:E; [exact I|].
  rewrite <- E. split.
  - apply lower_az_sp. apply all_in_join; [reflexivity | exact Haz].
  - rewrite split_join by exact Htok. unfold ws.
    rewrite length_firstn. lia.
Qed.

Lemma known_locations_ok :
  Forall (fun l => location_ok (Some l)) KNOWN_LOCATIONS.
Proof. repeat constructor. Qed.

Lemma extract_location_ok text o :
  _extract_location text = Ok o -> location_ok o.
Proof.
  destruct (find (fun k => is_some (search (whole_word k) (lower text)))
              KNOWN_LOCATIONS) as [loc|] eqn:F.
  - rewrite (extract_location_vocab _ F). intros H. apply Ok_inj in H.
    subst o. apply find_some in F. destruct F as [Hin _].
    pose proof known_locations_ok as K. rewrite Forall_forall in K.
    apply K. exact Hin.
  - destruct (extract_location_fallback _ F)
      as [[_ E] | (mo & g & _ & _ & Ha & _ & E)];
      rewrite E; intros H; apply Ok_inj in H; subst o.
    + exact I.
    + apply location_fallback_ok. exact Ha.
Qed.

(** *** The generic-noun pattern on text without line feeds *)

Lemma Matches_grp_inv n r st st'' :
  Matches (Grp n r) st st'' ->
  exists st', Matches r st st' /\ rest st'' = rest st' /\
              prev st'' = prev st'.
Proof. inversion 1; subst; simpl; eauto. Qed.

Lemma Matches_eos_inv st st' :
  Matches Eos st st' -> st' = st /\ at_eos st = true.
Proof. inversion 1; subst; auto. Qed.

Lemma Matches_alts_lits : forall ws w pv s cs,
    In w ws ->
    Matches (alts (map (lits false) ws)) (MState pv (w ++ s) cs)
      (MState (adv pv w) s cs).
Proof.
  induction ws as [|w0 ws IH]; intros w pv s cs Hin; [destruct Hin|].
  destruct ws as [|w1 ws].
  - destruct Hin as [<- | []]. apply Matches_lits.
  - change (alts (map (lits false) (w0 :: w1 :: ws)))
      with (Alt (lits false w0) (alts (map (lits false) (w1 :: ws)))).
    destruct Hin as [<- | Hin].
    + apply M_AltL. apply Matches_lits.
    + apply M_AltR. apply IH. exact Hin.
Qed.

Lemma generic_nouns_wordy : Forall wordy GENERIC_NOUNS.
Proof. repeat constructor. Qed.

Lemma az_sp_dot c : is_az_sp c = true -> dot c = true.
Proof. intros H. by_chars c H. Qed.

Lemma at_eos_dot st :
  at_eos st = true -> all_in dot (rest st) -> rest st = [].
Proof.
  unfold at_eos. destruct (rest st) as [|c [|c' l]]; auto; [|discriminate].
  intros Hc Hd. inversion Hd; subst. unfold dot in *.
  rewrite Hc in *. discriminate.
Qed.

Lemma all_in_app_r q (a b : str) : all_in q (a ++ b) -> all_in q b.
Proof. intros H. apply Forall_app in H. tauto. Qed.

(** A match of the generic-noun pattern: a noun between two word
    boundaries, and all the text after it. *)
Lemma generic_match_inv pv post st' :
  all_in dot post ->
  Matches generic_pat (MState pv post []) st' ->
  rest st' = [] /\
  exists noun post',
    In noun GENERIC_NOUNS /\ post = noun ++ post' /\
    is_word_opt pv = false /\ is_word_opt (hd_error post') = false.
Proof.
  intros Hdot H. unfold generic_pat in H. cbn [seqs] in H.
  apply Matches_seq_inv in H. destruct H as (st1 & H1 & H).
  apply Matches_bnd_inv in H1. destruct H1 as [-> B1].
  apply Matches_seq_inv in H. destruct H as (st2 & H2 & H).
  apply Matches_grp_inv in H2. destruct H2 as (st2' & H2 & R2 & P2).
  apply Matches_seq_inv in H. destruct H as (st3 & H3 & H).
  apply Matches_bnd_inv in H3. destruct H3 as [-> B3].
  apply Matches_seq_inv in H. destruct H as (st4 & H4 & H5).
  apply Matches_eos_inv in H5. destruct H5 as [-> E5].
  destruct (Matches_rest H2) as (noun & En & Pn & Ln).
  destruct (Matches_rest H4) as (w & Ew & _ & _).
  apply lang_alts_lits in Ln; [|discriminate].
  pose proof generic_nouns_wordy as W. rewrite Forall_forall in W.
  destruct (W noun Ln) as [Wh Wl].
  cbn [rest prev] in *. subst post.
  split.
  - apply at_eos_dot; auto.
    rewrite <- R2 in Hdot. apply all_in_app_r in Hdot.
    rewrite Ew in Hdot. apply all_in_app_r in Hdot. exact Hdot.
  - exists noun, (rest st2'). split; [exact Ln|]. split; [reflexivity|].
    unfold at_boundary in B1, B3. cbn [rest prev] in B1, B3.
    rewrite hd_error_app_wordy in B1 by exact Wh.
    rewrite P2, Pn, R2 in B3.
    rewrite (@adv_app_wordy pv noun Wl), Wl in B3.
    split.
    + destruct (is_word_opt pv); [discriminate | reflexivity].
    + destruct (is_word_opt (hd_error (rest st2')));
        [discriminate | reflexivity].
Qed.

Lemma generic_match_intro pv noun post' :
  In noun GENERIC_NOUNS -> all_in dot post' ->
  is_word_opt pv = false -> is_word_opt (hd_error post') = false ->
  exists st', Matches generic_pat (MState pv (noun ++ post') []) st'.
Proof.
  intros Hin Hdot Hp Hh.
  pose proof generic_nouns_wordy as W. rewrite Forall_forall in W.
  destruct (W noun Hin) as [Wh Wl].
  eexists. unfold generic_pat. cbn [seqs].
  eapply M_Seq.
  { apply M_Bnd. unfold at_boundary. cbn [prev rest].
    rewrite hd_error_app_wordy by exact Wh. rewrite Hp. reflexivity. }
  eapply M_Seq.
  { apply M_Grp. apply Matches_alts_lits. exact Hin. }
  cbn [prev rest caps].
  eapply M_Seq.
  { apply M_Bnd. unfold at_boundary. cbn [prev rest].
    rewrite (@adv_app_wordy pv noun Wl), Wl, Hh. reflexivity. }
  eapply M_Seq.
  { rewrite <- (app_nil_r post') at 1.
    apply M_Rep; [exact Hdot | lia | exact I]. }
  apply M_Eos. reflexivity.
Qed.

(** *** [re.sub] with a pattern that reads to the end of the text *)

Lemma match_at_start r b pv s pos mo :
  match_at r b pv s pos = Some mo ->
  m_start mo = pos /\ m_end mo = pos + (length s - length (m_rest mo)).
Proof.
  intros H. apply match_at_some in H. destruct H as (st' & _ & ->).
  split; reflexivity.
Qed.

Lemma search_from_start r : forall s pv pos mo,
    search_from r pv s pos = Some mo -> pos <= m_start mo.
Proof.
  intros s pv pos mo H. apply search_from_some in H.
  destruct H as (pre & post & _ & H & _).
  apply match_at_start in H. lia.
Qed.

Lemma scan_skip_all r :
  (forall pv pos, match_at r false pv [] pos = None) ->
  forall s pv pos, scan r pv s pos (length s) = [].
Proof.
  intros Hend. induction s as [|c s IH]; intros pv pos.
  - cbn [scan length]. rewrite Hend. reflexivity.
  - cbn [scan length app]. apply IH.
Qed.

Section SubCut.
Variable r : re.
Variable q : ascii -> bool.
Hypothesis to_the_end : forall pv s pos mo,
    all_in q s -> match_at r false pv s pos = Some mo ->
    m_end mo = m_start mo + length s /\ s <> [].

Lemma sub_cut_from : forall s pv pos,
    all_in q s ->
    flat_map (fun sg => match sg with
                        | Hit _ => []
                        | Gap c => [c]
                        end) (scan r pv s pos 0) =
    match search_from r pv s pos with
    | Some mo => firstn (m_start mo - pos) s
    | None => s
    end.
Proof.
  assert (Hend : forall pv pos, match_at r false pv [] pos = None).
  { intros pv pos. destruct (match_at r false pv [] pos) as [mo|] eqn:E; auto.
    destruct (@to_the_end pv [] pos mo (Forall_nil _) E) as [_ Hn].
    congruence. }
  induction s as [|c s IH]; intros pv pos Hs.
  - cbn [scan search_from]. rewrite Hend. reflexivity.
  - inversion Hs; subst. cbn [scan search_from].
    destruct (match_at r false pv (c :: s) pos) as [mo|] eqn:E.
    + destruct (@to_the_end pv (c :: s) pos mo Hs E) as [He _].
      pose proof E as Hst. apply match_at_start in Hst.
      destruct Hst as [Hst _].
      replace (Nat.eqb (m_end mo) (m_start mo)) with false
        by (symmetry; apply Nat.eqb_neq; simpl in He; lia).
      replace (pred (m_end mo - m_start mo)) with (length s)
        by (simpl in He; lia).
      cbn [app flat_map]. rewrite scan_skip_all by exact Hend.
      rewrite Hst, Nat.sub_diag. reflexivity.
    + cbn [app flat_map]. rewrite IH by assumption.
      destruct (search_from r (Some c) s (S pos)) as [mo|] eqn:F; auto.
      apply search_from_start in F.
      replace (m_start mo - pos) with (S (m_start mo - S pos)) by lia.
      reflexivity.
Qed.

Lemma sub_cut s :
  all_in q s ->
  sub r [] s = match search r s with
               | Some mo => firstn (m_start mo) s
               | None => s
               end.
Proof.
  intros Hs. unfold sub, search. rewrite sub_cut_from by exact Hs.
  destruct (search_from r None s 0); auto. rewrite Nat.sub_0_r. reflexivity.
Qed.
End SubCut.

Lemma generic_to_the_end pv s pos mo :
  all_in dot s -> match_at generic_pat false pv s pos = Some mo ->
  m_end mo = m_start mo + length s /\ s <> [].
Proof.
  intros Hs H. apply match_at_some in H. destruct H as (st' & HM & ->).
  apply generic_match_inv in HM; [|exact Hs].
  destruct HM as (Hr & noun & post' & Hin & -> & _).
  unfold mo_of. cbn [m_start m_end]. rewrite Hr. cbn [length]. split; [lia|].
  pose proof generic_nouns_wordy as W. rewrite Forall_forall in W.
  destruct (W noun Hin) as [Wh _]. destruct noun; [discriminate|].
  discriminate.
Qed.

Lemma sub_generic c :
  all_in dot c -> sub generic_pat [] c = cut_at_generic c.
Proof.
  intros Hc. unfold cut_at_generic.
  apply sub_cut with (q := dot); [|exact Hc].
  intros pv s pos mo. apply generic_to_the_end.
Qed.

(** The cut, in terms of the text: nothing is cut when no generic noun
    stands in it as a whole word; otherwise the leftmost such noun and all
    that follows it go. *)
Lemma cut_none c :
  all_in dot c ->
  (forall pre noun, In noun GENERIC_NOUNS -> ~ whole_word_after pre noun c) ->
  cut_at_generic c = c.
Proof.
  intros Hc Hno. unfold cut_at_generic.
  destruct (search generic_pat c) as [mo|] eqn:E; auto.
  exfalso. apply search_some in E.
  destruct E as (pre & post & st' & -> & HM & _).
  apply all_in_app_r in Hc.
  apply generic_match_inv in HM; [|exact Hc].
  destruct HM as (_ & noun & post' & Hin & -> & B1 & B2).
  apply (Hno pre noun Hin). exists post'. auto.
Qed.

Lemma cut_some c pre noun :
  all_in dot c -> In noun GENERIC_NOUNS -> whole_word_after pre noun c ->
  (forall pre' noun', In noun' GENERIC_NOUNS ->
                      whole_word_after pre' noun' c ->
                      length pre <= length pre') ->
  cut_at_generic c = pre.
Proof.
  intros Hc Hin (post & -> & B1 & B2) Hleft. unfold cut_at_generic.
  assert (Hpost : all_in dot post).
  { apply all_in_app_r in Hc. apply all_in_app_r in Hc. exact Hc. }
  destruct (@generic_match_intro (adv None pre) noun post Hin Hpost B1 B2)
    as (st0 & HM0).
  destruct (search generic_pat (pre ++ noun ++ post)) as [mo|] eqn:E.
  - apply search_some in E.
    destruct E as (pre1 & post1 & st1 & E1 & HM1 & -> & Hfirst).
    cbn [mo_of m_start].
    assert (Hp1 : all_in dot post1).
    { rewrite E1 in Hc. apply all_in_app_r in Hc. exact Hc. }
    pose proof HM1 as HM1'. apply generic_match_inv in HM1'; [|exact Hp1].
    destruct HM1' as (_ & noun1 & post1' & Hin1 & -> & C1 & C2).
    assert (L1 : length pre <= length pre1).
    { apply (Hleft pre1 noun1 Hin1). exists post1'. auto. }
    assert (L2 : ~ length pre < length pre1).
    { intros Hlt. apply (Hfirst pre (noun ++ post) st0 eq_refl Hlt).
      exact HM0. }
    assert (El : length pre1 = length pre) by lia.
    rewrite El. rewrite firstn_app, Nat.sub_diag, firstn_all. cbn [firstn].
    apply app_nil_r.
  - exfalso. eapply search_none in E; [apply E; exact HM0 | reflexivity].
Qed.

Lemma cut_spec_holds c : all_in dot c -> cut_spec c (cut_at_generic c).
Proof.
  intros Hc. unfold cut_at_generic.
  destruct (search generic_pat c) as [mo|] eqn:E.
  - right. apply search_some in E.
    destruct E as (pre & post & st' & -> & HM & -> & Hfirst).
    cbn [mo_of m_start].
    rewrite firstn_app, Nat.sub_diag, firstn_all. cbn [firstn].
    rewrite app_nil_r.
    pose proof (all_in_app_r _ _ Hc) as Hpost.
    pose proof HM as HM'. apply generic_match_inv in HM'; [|exact Hpost].
    destruct HM' as (_ & noun & post' & Hin & -> & B1 & B2).
    exists noun. split; [exact Hin|]. split; [exists post'; auto|].
    intros pre' noun' Hin' (post'' & E' & C1 & C2).
    destruct (Nat.le_gt_cases (length pre) (length pre')) as [|Hlt]; auto.
    exfalso.
    assert (Hp : all_in dot post'').
    { rewrite E' in Hc. apply all_in_app_r in Hc. apply all_in_app_r in Hc.
      exact Hc. }
    destruct (@generic_match_intro (adv None pre') noun' post'' Hin' Hp C1 C2)
      as (st0 & HM0).
    apply (Hfirst pre' (noun' ++ post'') st0 E' Hlt). exact HM0.
  - left. split; [reflexivity|].
    intros pre noun Hin (post & -> & B1 & B2).
    assert (Hp : all_in dot post).
    { apply all_in_app_r in Hc. apply all_in_app_r in Hc. exact Hc. }
    destruct (@generic_match_intro (adv None pre) noun post Hin Hp B1 B2)
      as (st0 & HM0).
    eapply search_none in E; [apply E; exact HM0 | reflexivity].
Qed.

Lemma cut_spec_unique c kept :
  all_in dot c -> cut_spec c kept -> kept = cut_at_generic c.
Proof.
  intros Hc [[-> Hno] | (noun & Hin & Hocc & Hleft)]; symmetry.
  - apply cut_none; assumption.
  - eapply cut_some; eassumption.
Qed.

(** The fallback in terms of the text of its capture. *)
Lemma location_fallback_cut g :
  all_in is_az_sp g ->
  exists kept,
    cut_spec (strip g) kept /\
    (forall kept', cut_spec (strip g) kept' -> kept' = kept) /\
    location_fallback g =
    nonempty_opt (join (L " ") (firstn 3 (split (strip kept)))).
Proof.
  intros Hg. exists (cut_at_generic (strip g)).
  assert (Hd : all_in dot (strip g)).
  { apply all_in_strip. eapply Forall_impl; [|exact Hg].
    cbv beta. apply az_sp_dot. }
  split; [apply cut_spec_holds; exact Hd|].
  split; [intros kept'; apply cut_spec_unique; exact Hd|].
  unfold location_fallback. cbv zeta. rewrite sub_generic by exact Hd.
  reflexivity.
Qed.

(** * The claims *)


(** C1.  For every text, [parse_details] returns a record and raises no
    exception; [_to_int_safe] itself never raises on any value: it returns
    the rounded number, and [None] when [float] or [round] raise. *)
Theorem C1_parse_details_never_raises :
  (forall text, exists d, parse_details text = Ok d) /\
  (forall v, _to_int_safe v =
             Ok (match v with
                 | VNone => None
                 | _ => opt_of_result (f <- py_float v ;; py_round f)
                 end)).
Proof.
  split; [apply parse_details_total|].
  intros [|f|s]; [reflexivity | apply to_int_safe_float | apply to_int_safe_str].
Qed.

(** C2.  On the empty string all five fields of the record are absent. *)
Theorem C2_empty_text_all_absent :
  parse_details (L "") = Ok absent_record.
Proof. vm_compute. reflexivity. Qed.

(** C3.  The power is read from the leftmost match of the number-and-unit
    pattern: the number as a float, times [1000.0] when the lower-cased
    unit starts with [kw] or with [kilo] (the test of the code), rounded to
    the nearest integer, a tie going to the even one.  Only a text without
    such a match goes to [power]/[wattage] with an optional [:] or [=] and
    digits; these are read as a float and rounded, which is their own
    value when that is below [2^53]. *)
Theorem C3_power_extraction :
  (forall text mo,
      search power_pat (lower text) = Some mo ->
      (exists pre post st',
          lower text = pre ++ post /\ matches_at power_pat pre post st' /\
          mo = mo_of (length pre) post st' /\
          forall pre' post' st'',
            lower text = pre' ++ post' -> length pre' < length pre ->
            ~ matches_at power_pat pre' post' st'') /\
      exists ip fp u,
        group mo NUM = Some (decimal_text ip fp) /\ ip <> [] /\
        all_in is_digit ip /\ all_in is_digit fp /\
        group mo UNIT = Some u /\
        _extract_power_watts text =
        Ok (opt_of_result
              (py_round (if startswith (L "kw") (lower u)
                            || startswith (L "kilo") (lower u)
                         then float_mul (decimal_float ip fp) f1000
                         else decimal_float ip fp)))) /\
  (forall s mt e,
      exists z, py_round (S754_finite s mt e) = Ok z /\
        let v := if s then Zneg mt else Zpos mt in
        if (0 <=? e)%Z then z = (v * 2 ^ e)%Z
        else nearest_even v (2 ^ (- e)) z) /\
  (forall text pre post st',
      lower text = pre ++ post -> matches_at power_pat pre post st' ->
      search power_pat (lower text) <> None) /\
  (forall text m2,
      search power_pat (lower text) = None ->
      search power_word_pat (lower text) = Some m2 ->
      exists ds,
        group m2 1 = Some ds /\ ds <> [] /\ all_in is_digit ds /\
        _extract_power_watts text = _to_int_safe (VStr ds) /\
        ((digits_val ds < 2 ^ 53)%Z ->
         _extract_power_watts text = Ok (Some (digits_val ds)))) /\
  (forall text,
      search power_pat (lower text) = None ->
      search power_word_pat (lower text) = None ->
      _extract_power_watts text = Ok None) /\
  (is_some (search power_pat (lower (L "runs at 1.5kW"))) = true /\
   _extract_power_watts (L "runs at 1.5kW") = Ok (Some 1500%Z)) /\
  _extract_power_watts (L "runs at 1500W") = Ok (Some 1500%Z) /\
  (search power_pat (lower (L "power: 800")) = None /\
   is_some (search power_word_pat (lower (L "power: 800"))) = true /\
   _extract_power_watts (L "power: 800") = Ok (Some 800%Z)) /\
  _extract_power_watts (L "2w now, 3kw later, power: 800") = Ok (Some 2%Z) /\
  (_extract_power_watts (L "2.5 watts") = Ok (Some 2%Z) /\
   _extract_power_watts (L "3.5 watts") = Ok (Some 4%Z) /\
   _extract_power_watts (L "0.0005 kW") = Ok (Some 0%Z)).
Proof.
  split.
  { intros text mo H. split.
    - destruct (search_some _ _ H) as (pre & post & st' & E & HM & Emo & Hl).
      exists pre, post, st'. auto.
    - destruct (extract_power_hit _ H)
        as (ip & fp & u & ? & ? & ? & ? & ? & ? & E).
      exists ip, fp, u. repeat (split; [assumption|]). exact E. }
  split; [apply py_round_nearest_even|].
  split.
  { intros text pre post st' E HM. eapply search_complete; eauto. }
  split.
  { intros text m2 H1 H2.
    destruct (extract_power_fallback _ H1 H2) as (ds & Hg & Hn & Hd & E).
    exists ds. split; [exact Hg|]. split; [exact Hn|]. split; [exact Hd|].
    split; [exact E|].
    intros Hv. rewrite E. apply to_int_safe_small; auto. }
  split.
  { intros text H1 H2. rewrite (extract_power_miss _ H1), H2. reflexivity. }
  repeat split; vm_compute; reflexivity.
Qed.

(** C3, as stated, fails on [power: 9007199254740993]: no number-and-unit
    match, the fallback reads the digits 9007199254740993, and the route
    through [float] returns 9007199254740992. *)
Lemma C3_counterexample_not_verbatim :
  let text := L "power: 9007199254740993" in
  search power_pat (lower text) = None /\
  option_map (fun m2 => group m2 1) (search power_word_pat (lower text)) =
  Some (Some (L "9007199254740993")) /\
  digits_val (L "9007199254740993") = 9007199254740993%Z /\
  _extract_power_watts text = Ok (Some 9007199254740992%Z) /\
  _extract_power_watts text <>
  Ok (Some (digits_val (L "9007199254740993"))).
Proof.
  cbv zeta. repeat split; try (vm_compute; reflexivity).
  vm_compute. discriminate.
Qed.

(** C4.  The digit form [<digits> star(s)] comes first, wherever it
    stands and whatever else the text holds; then the word form, with the
    value of its number word; then [rating (is|:)? <digits>]; otherwise
    nothing.  Digits are read as a number and rounded: below [2^53] that is
    their value. *)
Theorem C4_rating_precedence :
  (forall text pre post st',
      lower text = pre ++ post -> matches_at star_digit_pat pre post st' ->
      exists mo, search star_digit_pat (lower text) = Some mo) /\
  (forall text mo,
      search star_digit_pat (lower text) = Some mo ->
      exists ds,
        group mo 1 = Some ds /\ ds <> [] /\ all_in is_digit ds /\
        _extract_rating text = _to_int_safe (VStr ds) /\
        ((digits_val ds < 2 ^ 53)%Z ->
         _extract_rating text = Ok (Some (digits_val ds)))) /\
  (forall text m2,
      search star_digit_pat (lower text) = None ->
      search star_word_pat (lower text) = Some m2 ->
      exists w z,
        group m2 1 = Some w /\ In (w, z) NUMBER_WORDS /\
        _extract_rating text = Ok (Some z)) /\
  (forall text m3,
      search star_digit_pat (lower text) = None ->
      search star_word_pat (lower text) = None ->
      search rating_pat (lower text) = Some m3 ->
      exists ds,
        group m3 1 = Some ds /\ ds <> [] /\ all_in is_digit ds /\
        _extract_rating text = _to_int_safe (VStr ds) /\
        ((digits_val ds < 2 ^ 53)%Z ->
         _extract_rating text = Ok (Some (digits_val ds)))) /\
  (forall text,
      search star_digit_pat (lower text) = None ->
      search star_word_pat (lower text) = None ->
      search rating_pat (lower text) = None ->
      _extract_rating text = Ok None) /\
  (is_some (search star_digit_pat (lower (L "it's a 3 star fridge"))) = true
   /\ _extract_rating (L "it's a 3 star fridge") = Ok (Some 3%Z)) /\
  (search star_digit_pat (lower (L "three star washing machine")) = None /\
   is_some (search star_word_pat (lower (L "three star washing machine")))
   = true /\
   _extract_rating (L "three star washing machine") = Ok (Some 3%Z)) /\
  (search star_digit_pat (lower (L "rating is 4")) = None /\
   search star_word_pat (lower (L "rating is 4")) = None /\
   is_some (search rating_pat (lower (L "rating is 4"))) = true /\
   _extract_rating (L "rating is 4") = Ok (Some 4%Z)) /\
  (is_some (search star_word_pat (lower (L "three star and 5 stars"))) = true
   /\ _extract_rating (L "three star and 5 stars") = Ok (Some 5%Z)).
Proof.
  split.
  { intros text pre post st' E HM.
    destruct (search star_digit_pat (lower text)) as [mo|] eqn:S; eauto.
    exfalso. eapply search_none in S; [apply S; exact HM | exact E]. }
  split.
  { intros text mo H. destruct (star_digit_group _ H) as (ds & Hg & Hn & Hd).
    exists ds. repeat (split; [assumption|]).
    assert (E : _extract_rating text = _to_int_safe (VStr ds)).
    { unfold _extract_rating. rewrite H, Hg. reflexivity. }
    split; [exact E|]. intros Hv. rewrite E. apply to_int_safe_small; auto. }
  split.
  { intros text m2 H1 H2. destruct (star_word_group _ H2) as (w & z & Hg & Hz & Hin).
    exists w, z. repeat (split; [assumption|]).
    unfold _extract_rating. rewrite H1, H2, Hg, Hz. reflexivity. }
  split.
  { intros text m3 H1 H2 H3.
    destruct (rating_group _ H3) as (ds & Hg & Hn & Hd).
    exists ds. repeat (split; [assumption|]).
    assert (E : _extract_rating text = _to_int_safe (VStr ds)).
    { unfold _extract_rating. rewrite H1, H2, H3, Hg. reflexivity. }
    split; [exact E|]. intros Hv. rewrite E. apply to_int_safe_small; auto. }
  split.
  { intros text H1 H2 H3. unfold _extract_rating. rewrite H1, H2, H3.
    reflexivity. }
  repeat split; vm_compute; reflexivity.
Qed.

(** C5.  The first entry of the vocabulary, in list order, that occurs in
    the lower-cased text as a whole word is the location, wherever it
    stands.  Only when no entry occurs does the preposition pattern apply:
    its capture is a lower-case letter followed by 1 to 30 letters or
    spaces; the leftmost whole-word generic noun of the capture and all
    that follows it are dropped, the first three words of what is left are
    kept, and nothing left means no location. *)
Theorem C5_location_stages :
  (forall text loc,
      first_with (fun k => whole_word_in k (lower text)) KNOWN_LOCATIONS loc ->
      _extract_location text = Ok (Some loc)) /\
  (forall text,
      Forall (fun k => ~ whole_word_in k (lower text)) KNOWN_LOCATIONS ->
      (search prep_pat (lower text) = None /\
       _extract_location text = Ok None) \/
      (exists mo g kept,
          search prep_pat (lower text) = Some mo /\
          group mo 1 = Some g /\
          all_in is_az_sp g /\ 2 <= length g <= 31 /\
          cut_spec (strip g) kept /\
          (forall kept', cut_spec (strip g) kept' -> kept' = kept) /\
          _extract_location text =
          Ok (nonempty_opt (join (L " ") (firstn 3 (split (strip kept))))))) /\
  (forall text o, _extract_location text = Ok o -> location_ok o) /\
  _extract_location (L "turn on the fan in the kitchen") =
  Ok (Some (L "kitchen")) /\
  (first_with (fun k => whole_word_in k (lower (L "hall then kitchen")))
     KNOWN_LOCATIONS (L "kitchen") /\
   _extract_location (L "hall then kitchen") = Ok (Some (L "kitchen"))) /\
  _extract_location (L "place it in the study room") = Ok (Some (L "study")) /\
  (Forall (fun k =>
             ~ whole_word_in k (lower (L "put it in the garden area now")))
     KNOWN_LOCATIONS /\
   _extract_location (L "put it in the garden area now") =
   Ok (Some (L "garden"))) /\
  _extract_location (L "for a b c d e f g h") = Ok (Some (L "a b c")) /\
  _extract_location (L "in the room x") = Ok None /\
  _extract_location (L "nowhere") = Ok None.
Proof.
  split.
  { intros text loc H. apply extract_location_vocab.
    apply keyword_find; [apply known_locations_wordy | exact H]. }
  split.
  { intros text H.
    assert (F : find (fun k => is_some (search (whole_word k) (lower text)))
                  KNOWN_LOCATIONS = None).
    { apply keyword_find; [apply known_locations_wordy | exact H]. }
    destruct (extract_location_fallback _ F)
      as [[E1 E2] | (mo & g & E1 & E2 & Ha & Hl & E3)]; [left; auto|].
    right. destruct (location_fallback_cut Ha) as (kept & Hk & Hu & Ek).
    exists mo, g, kept. rewrite <- Ek. auto 10. }
  split; [apply extract_location_ok|].
  split; [vm_compute; reflexivity|].
  split.
  { split; [|vm_compute; reflexivity].
    apply keyword_found; [apply known_locations_wordy|].
    vm_compute. reflexivity. }
  split; [vm_compute; reflexivity|].
  split.
  { split; [|vm_compute; reflexivity].
    apply keyword_found; [apply known_locations_wordy|].
    vm_compute. reflexivity. }
  repeat split; vm_compute; reflexivity.
Qed.

(** C5, as stated, fails on [in conservatory greenhouse extension]: no
    vocabulary entry occurs, the pattern [(in|for|at) (the)? <1-3 words>]
    of the specification takes the three words, yet the extractor, whose
    capture holds 31 characters at most, returns the first two.  On
    [in x] the specification's pattern finds the word [x], yet the
    extractor, whose capture needs two characters, returns nothing. *)
Lemma C5_counterexample_capture :
  let text := L "in conservatory greenhouse extension" in
  let text' := L "in x" in
  (find (fun k => is_some (search (whole_word k) (lower text)))
        KNOWN_LOCATIONS = None /\
   spec_location_fallback (lower text) =
   Some (L "conservatory greenhouse extension") /\
   _extract_location text = Ok (Some (L "conservatory greenhouse"))) /\
  (find (fun k => is_some (search (whole_word k) (lower text')))
        KNOWN_LOCATIONS = None /\
   spec_location_fallback (lower text') = Some (L "x") /\
   search prep_pat (lower text') = None /\
   _extract_location text' = Ok None).
Proof. cbv zeta. repeat split; vm_compute; reflexivity. Qed.

(** C6.  The name is taken at the leftmost window position [i] whose
    2-word or 3-word window holds a device keyword as a substring: the word
    before [i], when there is one, followed by the 3-word window at [i]
    (which holds the 2-word window), up to 4 words joined by spaces.
    Without such a position there is no name. *)
Theorem C6_device_name_window :
  (forall text i,
      let words := words_of text in
      i + 1 < length words ->
      window_hit words i = true ->
      (forall j, j < i -> window_hit words j = false) ->
      let cand := slice words (i - 1) (i + 3) in
      _extract_device_name text = Ok (Some (join (L " ") cand)) /\
      length cand <= 4 /\
      (i = 0 -> cand = slice words 0 3) /\
      (forall j b, i = S j -> nth_error words j = Some b ->
                   cand = b :: slice words i (i + 3))) /\
  (forall text,
      (forall i, i + 1 < length (words_of text) ->
                 window_hit (words_of text) i = false) ->
      _extract_device_name text = Ok None) /\
  (forall text i k,
      i + 1 < length (words_of text) ->
      contains k (window (words_of text) i 2) = true ->
      contains k (window (words_of text) i 3) = true) /\
  (_extract_device_name (L "LG fridge two star") =
   Ok (Some (L "lg fridge two")) /\
   contains (L "lg fridge") (L "lg fridge two") = true) /\
  (let words := words_of (L "the new samsung washing machine") in
   window_hit words 0 = false /\ window_hit words 1 = false /\
   window_hit words 2 = true /\ length words = 5 /\
   _extract_device_name (L "the new samsung washing machine") =
   Ok (Some (L "new samsung washing machine"))) /\
  _extract_device_name (L "hello there world") = Ok None.
Proof.
  split.
  { intros text i words Hi Hhit Hfirst cand.
    split; [|split; [|split]].
    - rewrite extract_device_name_find. fold words.
      rewrite (@find_seq_first (window_hit words) (length words - 1) i)
        by (auto; lia).
      cbn [option_map]. rewrite Nat.max_0_l. fold cand.
      rewrite strip_join; [reflexivity|].
      apply Forall_slice. apply words_of_tokens.
    - pose proof (slice_length words (i - 1) (i + 3)). unfold cand. lia.
    - intros ->. reflexivity.
    - intros j b -> Hb. unfold cand.
      replace (S j - 1) with j by lia.
      apply slice_cons; [exact Hb | lia]. }
  split.
  { intros text Hno. rewrite extract_device_name_find.
    rewrite find_seq_none; [reflexivity|].
    intros j Hj. apply Hno. lia. }
  split.
  { intros text i k Hi Hk.
    destruct (@index_ok _ (words_of text) i ltac:(lia)) as (w0 & _ & H0).
    destruct (@index_ok _ (words_of text) (i + 1) ltac:(lia)) as (w1 & _ & H1).
    rewrite (@window_3 (words_of text) i w0 w1 H0 H1).
    apply contains_app. exact Hk. }
  repeat split; vm_compute; reflexivity.
Qed.

(** C7.  The explicit pattern [type (is|:)? <word>] comes first and gives
    its word, a run of lower-case letters; otherwise the first keyword of
    the list, in list order, that occurs in the lower-cased text as a whole
    word; otherwise nothing. *)
Theorem C7_type_precedence :
  (forall text mo,
      search type_pat (lower text) = Some mo ->
      exists g, group mo 1 = Some g /\ g <> [] /\ all_in is_az g /\
                _extract_type text = Ok (Some g)) /\
  (forall text kw,
      search type_pat (lower text) = None ->
      first_with (fun k => whole_word_in k (lower text)) TYPE_KEYWORDS kw ->
      _extract_type text = Ok (Some kw)) /\
  (forall text,
      search type_pat (lower text) = None ->
      Forall (fun k => ~ whole_word_in k (lower text)) TYPE_KEYWORDS ->
      _extract_type text = Ok None) /\
  TYPE_KEYWORDS = map L ["electric"; "gas"; "solar"; "battery"; "diesel"]%string /\
  (is_some (search type_pat (lower (L "type: electric"))) = true /\
   _extract_type (L "type: electric") = Ok (Some (L "electric"))) /\
  (search type_pat (lower (L "it runs on solar power")) = None /\
   _extract_type (L "it runs on solar power") = Ok (Some (L "solar"))) /\
  (first_with (fun k => whole_word_in k (lower (L "solar and gas")))
     TYPE_KEYWORDS (L "gas") /\
   _extract_type (L "solar and gas") = Ok (Some (L "gas"))) /\
  (Forall (fun k => ~ whole_word_in k (lower (L "no such word")))
     TYPE_KEYWORDS /\
   _extract_type (L "no such word") = Ok None).
Proof.
  split; [apply extract_type_explicit|].
  split.
  { intros text kw Hs Hk. unfold _extract_type. rewrite Hs, keyword_loop.
    f_equal. apply keyword_find; auto. apply type_keywords_wordy. }
  split.
  { intros text Hs Hk. unfold _extract_type. rewrite Hs, keyword_loop.
    f_equal. apply keyword_find; auto. apply type_keywords_wordy. }
  split; [reflexivity|].
  split; [split; vm_compute; reflexivity|].
  split; [split; vm_compute; reflexivity|].
  split; (split; [|vm_compute; reflexivity]).
  - apply keyword_found; [apply type_keywords_wordy|].
    vm_compute. reflexivity.
  - apply keyword_found; [apply type_keywords_wordy|].
    vm_compute. reflexivity.
Qed.

(** C8.  In the record of any text, a location that is present is
    lower-case and has at most three words. *)
Theorem C8_location_lower_case_three_words :
  (forall text,
      exists d, parse_details text = Ok d /\ location_ok (location d)) /\
  (exists d, parse_details (L "Put it IN THE Big Blue Old Garden Shed") = Ok d
             /\ location d = Some (L "big blue old")).
Proof.
  split.
  - intros text. destruct (parse_details_total text) as (d & Hd).
    exists d. split; [exact Hd|].
    apply parse_details_fields in Hd.
    destruct Hd as (_ & _ & _ & _ & Hl).
    eapply extract_location_ok; eauto.
  - eexists. split; vm_compute; reflexivity.
Qed.

(** C9.  A text with fewer than two lower-case alphanumeric words has no
    device name, whatever its single word is. *)
Theorem C9_fewer_than_two_words_no_name text :
  length (findall (Plus is_az09) (lower text)) < 2 ->
  _extract_device_name text = Ok None /\
  exists d, parse_details text = Ok d /\ name d = None.
Proof.
  intros Hlen.
  assert (E : _extract_device_name text = Ok None).
  { unfold _extract_device_name, range.
    replace (Z.to_nat _) with 0 by lia. reflexivity. }
  split; [exact E|].
  destruct (parse_details_total text) as (d & Hd). exists d. split; auto.
  apply parse_details_fields in Hd. destruct Hd as (Hn & _).
  rewrite E in Hn. apply Ok_inj in Hn. auto.
Qed.

Lemma C9_witness_fridge :
  In (L "fridge") DEVICE_KEYWORDS /\
  _extract_device_name (L "fridge") = Ok None /\
  exists d, parse_details (L "fridge") = Ok d /\ name d = None.
Proof.
  split; [vm_compute; auto|].
  apply (@C9_fewer_than_two_words_no_name (L "fridge")).
  vm_compute. lia.
Defined.

(** C10.  In the record of any text, a power or a rating that is present
    is not negative; the number words range over 0 to 10. *)
Theorem C10_power_and_rating_nonnegative text :
  (exists d, parse_details text = Ok d /\
             nonneg_opt (powerwatts d) /\ nonneg_opt (rating d)) /\
  Forall (fun kv => (0 <= snd kv <= 10)%Z) NUMBER_WORDS.
Proof.
  split.
  - destruct (parse_details_total text) as (d & Hd). exists d. split; auto.
    apply parse_details_fields in Hd. destruct Hd as (_ & _ & Hp & Hr & _).
    split.
    + destruct (powerwatts d); simpl; auto.
      eapply extract_power_nonneg; eauto.
    + destruct (rating d); simpl; auto.
      eapply extract_rating_nonneg; eauto.
  - unfold NUMBER_WORDS. repeat constructor; simpl; lia.
Qed.

(** * Further properties of the extractors *)

Lemma lower_char_idem c : lower_char (lower_char c) = lower_char c.
Proof.
  apply Ascii.eqb_eq. revert c. apply ascii_forall.
  vm_compute. reflexivity.
Qed.

Lemma lower_idem t : lower (lower t) = lower t.
Proof.
  unfold lower. rewrite map_map. apply map_ext. apply lower_char_idem.
Qed.

(** X1.  Letter case does not count: two texts with the same lower-case
    form give the same record, and so do a text and its lower-case form. *)
Theorem X1_parse_details_ignores_case text text' :
  lower text = lower text' ->
  parse_details text = parse_details text' /\
  parse_details (lower text) = parse_details text.
Proof.
  intros H.
  assert (G : forall a b, lower a = lower b ->
                          parse_details a = parse_details b).
  { intros a b E.
    unfold parse_details, _extract_device_name, _extract_type,
      _extract_power_watts, _extract_rating, _extract_location.
    rewrite E. reflexivity. }
  split; [apply G; exact H | apply G; apply lower_idem].
Qed.

Lemma X1_witness_lg_fridge :
  parse_details (L "LG Fridge in the KITCHEN") =
  parse_details (L "lg fridge in the kitchen") /\
  parse_details (lower (L "LG Fridge in the KITCHEN")) =
  parse_details (L "LG Fridge in the KITCHEN").
Proof.
  apply (@X1_parse_details_ignores_case
           (L "LG Fridge in the KITCHEN") (L "lg fridge in the kitchen")).
  vm_compute. reflexivity.
Defined.

Lemma contains_app_r k : forall s s',
    contains k s' = true -> contains k (s ++ s') = true.
Proof.
  induction s as [|c s IH]; intros s' H; [exact H|].
  change ((c :: s) ++ s') with (c :: (s ++ s')). cbn [contains].
  rewrite (IH s' H). apply orb_true_r.
Qed.

Lemma slice_length_eq {X} (l : list X) a b :
  length (slice l a b) = Nat.min b (length l) - a.
Proof. unfold slice. rewrite length_skipn, length_firstn. reflexivity. Qed.

Lemma words_of_az09 text :
  Forall (fun w => w <> [] /\ all_in is_az09 w) (words_of text).
Proof.
  apply Forall_forall. intros w H. apply findall_lang in H.
  destruct H as (Ha & Hn & _). split; [apply nonempty_length|]; auto.
Qed.

(** A hit of either window is a hit of the 3-word window. *)
Lemma window_hit_3 words i :
  i + 1 < length words -> window_hit words i = true ->
  exists k, In k DEVICE_KEYWORDS /\ contains k (window words i 3) = true.
Proof.
  intros Hi H. unfold window_hit in H. apply existsb_exists in H.
  destruct H as (k & Hin & Hk). exists k. split; [exact Hin|].
  apply orb_true_iff in Hk. destruct Hk as [Hk | Hk]; [|exact Hk].
  destruct (@index_ok _ words i ltac:(lia)) as (w0 & _ & H0).
  destruct (@index_ok _ words (i + 1) ltac:(lia)) as (w1 & _ & H1).
  rewrite (@window_3 words i w0 w1 H0 H1). apply contains_app. exact Hk.
Qed.

Lemma device_name_words text n :
  _extract_device_name text = Ok (Some n) ->
  exists ws,
    n = join (L " ") ws /\ 2 <= length ws <= 4 /\
    Forall (fun w => w <> [] /\ all_in is_az09 w) ws /\
    exists k, In k DEVICE_KEYWORDS /\ contains k n = true.
Proof.
  rewrite extract_device_name_find. cbv zeta.
  set (words := words_of text).
  destruct (find (window_hit words) (seq 0 (length words - 1)))
    as [i|] eqn:F; [|discriminate].
  cbn [option_map]. rewrite Nat.max_0_l. intros H. apply Ok_inj in H.
  injection H as H.
  apply find_some in F. destruct F as [Hi Hhit]. apply in_seq in Hi.
  set (ws := slice words (i - 1) (i + 3)) in *.
  assert (Htok : Forall is_token ws)
    by (apply Forall_slice, words_of_tokens).
  rewrite strip_join in H by exact Htok. subst n.
  exists ws. split; [reflexivity|]. split.
  { unfold ws. rewrite slice_length_eq. lia. }
  split; [apply Forall_slice, words_of_az09|].
  destruct (@window_hit_3 words i ltac:(lia) Hhit) as (k & Hin & Hk).
  exists k. split; [exact Hin|].
  destruct i as [|j].
  - exact Hk.
  - destruct (@index_ok _ words j ltac:(lia)) as (b & _ & Hb).
    destruct (@index_ok _ words (S j) ltac:(lia)) as (w0 & _ & H0).
    unfold ws. replace (S j - 1) with j by lia.
    rewrite (@slice_cons _ words j _ b Hb) by lia.
    unfold window in Hk.
    rewrite (@slice_cons _ words (S j) _ w0 H0) in * by lia.
    change (join (L " ") (b :: w0 :: ?l))
      with (b ++ L " " ++ join (L " ") (w0 :: l)).
    rewrite app_assoc. apply contains_app_r. exact Hk.
Qed.

(** X2.  A device name that is present is made of 2 to 4 words of
    lower-case letters and digits, joined by single spaces, and holds a
    device keyword as a substring. *)
Theorem X2_device_name_shape text n :
  _extract_device_name text = Ok (Some n) ->
  exists ws,
    n = join (L " ") ws /\ 2 <= length ws <= 4 /\
    Forall (fun w => w <> [] /\ all_in is_az09 w) ws /\
    exists k, In k DEVICE_KEYWORDS /\ contains k n = true.
Proof. apply device_name_words. Qed.

Lemma X2_witness_samsung :
  exists ws,
    L "new samsung washing machine" = join (L " ") ws /\
    2 <= length ws <= 4 /\
    Forall (fun w => w <> [] /\ all_in is_az09 w) ws /\
    exists k, In k DEVICE_KEYWORDS /\
              contains k (L "new samsung washing machine") = true.
Proof.
  apply (@X2_device_name_shape (L "The NEW Samsung washing-machine!")).
  vm_compute. reflexivity.
Defined.

Lemma type_keywords_az :
  Forall (fun k => k <> [] /\ all_in is_az k) TYPE_KEYWORDS.
Proof.
  repeat (constructor; [split; [discriminate | repeat constructor]|]).
  constructor.
Qed.

Lemma type_word text ty :
  _extract_type text = Ok (Some ty) -> ty <> [] /\ all_in is_az ty.
Proof.
  destruct (search type_pat (lower text)) as [mo|] eqn:E.
  - destruct (extract_type_explicit _ E) as (g & _ & Hn & Ha & ->).
    intros H. apply Ok_inj in H. injection H as <-. auto.
  - unfold _extract_type. rewrite E, keyword_loop. intros H.
    apply Ok_inj in H. apply find_some in H. destruct H as [Hin _].
    pose proof type_keywords_az as K. rewrite Forall_forall in K.
    apply K. exact Hin.
Qed.

(** X3.  A type that is present is a non-empty run of lower-case letters,
    whether it comes from the explicit pattern or from the keyword list. *)
Theorem X3_type_is_lower_case_word text ty :
  _extract_type text = Ok (Some ty) -> ty <> [] /\ all_in is_az ty.
Proof. apply type_word. Qed.

Lemma X3_witness_type_of :
  L "of" <> [] /\ all_in is_az (L "of").
Proof.
  apply (@X3_type_is_lower_case_word (L "What TYPE of device is it?")).
  vm_compute. reflexivity.
Defined.

Lemma join_two_nonempty (ws : list str) :
  2 <= length ws -> Forall (fun w => w <> [] /\ all_in is_az09 w) ws ->
  join (L " ") ws <> [].
Proof.
  destruct ws as [|w ws]; [simpl; lia|]. intros _ H.
  inversion H as [|? ? [Hn _] _]; subst.
  apply join_nonempty. exact Hn.
Qed.

Lemma known_locations_nonempty : Forall (fun l => l <> []) KNOWN_LOCATIONS.
Proof. repeat (constructor; [discriminate|]). constructor. Qed.

Lemma location_nonempty text l :
  _extract_location text = Ok (Some l) -> l <> [].
Proof.
  destruct (find (fun k => is_some (search (whole_word k) (lower text)))
              KNOWN_LOCATIONS) as [loc|] eqn:F.
  - rewrite (extract_location_vocab _ F). intros H. apply Ok_inj in H.
    injection H as <-. apply find_some in F. destruct F as [Hin _].
    pose proof known_locations_nonempty as K. rewrite Forall_forall in K.
    apply K. exact Hin.
  - destruct (extract_location_fallback _ F)
      as [[_ E] | (mo & g & _ & _ & _ & _ & E)]; rewrite E;
      [discriminate|].
    unfold location_fallback, nonempty_opt. cbv zeta.
    destruct (join _ _) eqn:J; [discriminate|].
    intros H. apply Ok_inj in H. injection H as <-. discriminate.
Qed.

(** X4.  No string field of the record is ever the empty string: a name, a
    type or a location is absent or has at least one character. *)
Theorem X4_present_fields_not_empty text :
  exists d, parse_details text = Ok d /\
            not_empty_opt (name d) /\ not_empty_opt (type d) /\
            not_empty_opt (location d).
Proof.
  destruct (parse_details_total text) as (d & Hd). exists d.
  split; [exact Hd|]. apply parse_details_fields in Hd.
  destruct Hd as (Hn & Ht & _ & _ & Hl). repeat split.
  - destruct (name d) as [n|]; simpl; auto.
    destruct (device_name_words _ Hn) as (ws & -> & Hlen & Hws & _).
    apply join_two_nonempty; [lia | exact Hws].
  - destruct (type d) as [ty|]; simpl; auto.
    apply (type_word _ Ht).
  - destruct (location d) as [l|]; simpl; auto.
    eapply location_nonempty; eauto.
Qed.

(** *** Multiplication by [1000.0] *)

Section FloatMul.
Local Open Scope Z_scope.

Lemma digits2_pos_upper n : Zpos n < 2 ^ Zpos (digits2_pos n).
Proof.
  induction n as [p IH|p IH|]; cbn [digits2_pos]; try (simpl; lia).
  - rewrite Pos2Z.inj_succ, Z.pow_succ_r by lia. lia.
  - rewrite Pos2Z.inj_succ, Z.pow_succ_r by lia. lia.
Qed.

Lemma digits2_pos_unique v x :
  1 <= x -> 2 ^ (x - 1) <= Zpos v < 2 ^ x -> Zpos (digits2_pos v) = x.
Proof.
  intros Hx [Hlo Hhi].
  pose proof (digits2_pos_lower v) as L1.
  pose proof (digits2_pos_upper v) as U1.
  set (dv := Zpos (digits2_pos v)) in *.
  destruct (Z.lt_trichotomy dv x) as [Lt | [E | Gt]]; auto; exfalso.
  - assert (2 ^ dv <= 2 ^ (x - 1)) by (apply Z.pow_le_mono_r; lia). lia.
  - assert (2 ^ x <= 2 ^ (dv - 1)) by (apply Z.pow_le_mono_r; lia). lia.
Qed.

Lemma shr_1_even z :
  0 < z ->
  shr_1 (Build_shr_record (2 * z) false false) = Build_shr_record z false false.
Proof. destruct z; try lia. reflexivity. Qed.

(** Shifting out [k] zero bits loses nothing. *)
Lemma iter_shr_exact : forall k z,
    0 < z ->
    iter_pos shr_1 k (Build_shr_record (z * 2 ^ Zpos k) false false) =
    Build_shr_record z false false.
Proof.
  induction k as [k IH|k IH|]; intros z Hz; cbn [iter_pos].
  - assert (E : Zpos k~1 = Zpos k + Zpos k + 1) by lia. rewrite E.
    rewrite !Z.pow_add_r, Z.pow_1_r by lia.
    assert (0 < 2 ^ Zpos k) by (apply Z.pow_pos_nonneg; lia).
    replace (z * (2 ^ Zpos k * 2 ^ Zpos k * 2))
      with (2 * ((z * 2 ^ Zpos k) * 2 ^ Zpos k)) by ring.
    rewrite shr_1_even by nia. rewrite IH by nia. apply IH. exact Hz.
  - assert (E : Zpos k~0 = Zpos k + Zpos k) by lia. rewrite E.
    rewrite Z.pow_add_r by lia.
    assert (0 < 2 ^ Zpos k) by (apply Z.pow_pos_nonneg; lia).
    replace (z * (2 ^ Zpos k * 2 ^ Zpos k))
      with ((z * 2 ^ Zpos k) * 2 ^ Zpos k) by ring.
    rewrite IH by nia. apply IH. exact Hz.
  - replace (z * 2 ^ 1) with (2 * z) by lia. apply shr_1_even. exact Hz.
Qed.

(** The product of the float of an integer by [1000.0] is the float of
    the product, as long as that is below [2^53]. *)
Lemma float_mul_1000 n :
  Zpos n * 1000 < 2 ^ 53 ->
  float_mul (float_of_ratio false n 1) f1000 =
  float_of_ratio false (n * 1000) 1.
Proof.
  intros H.
  assert (Hn : Zpos n < 2 ^ 53) by lia.
  assert (HN : Zpos (n * 1000) < 2 ^ 53) by lia.
  destruct (float_of_pos Hn) as (p & -> & Ep).
  destruct (float_of_pos HN) as (p' & -> & Ep').
  pose proof (@digits2_pos_le n 53 ltac:(lia) Hn) as Hd.
  pose proof (@digits2_pos_le (n * 1000) 53 ltac:(lia) HN) as HD.
  pose proof (digits2_pos_upper (n * 1000)) as HU.
  pose proof (digits2_pos_lower n) as HL.
  set (d := Zpos (digits2_pos n)) in *.
  set (D := Zpos (digits2_pos (n * 1000))) in *.
  assert (Hd1 : 1 <= d) by (unfold d; lia).
  assert (HdD : d <= D).
  { destruct (Z_le_gt_dec d D) as [|G]; auto. exfalso.
    assert (2 ^ D <= 2 ^ (d - 1)) by (apply Z.pow_le_mono_r; lia). lia. }
  assert (Hp' : 2 ^ 52 <= Zpos p' < 2 ^ 53).
  { rewrite Ep'. pose proof (digits2_pos_lower (n * 1000)) as HL'. fold D in HL'.
    assert (P : 0 < 2 ^ (53 - D)) by (apply Z.pow_pos_nonneg; lia).
    replace (2 ^ 52) with (2 ^ (D - 1) * 2 ^ (53 - D))
      by (rewrite <- Z.pow_add_r by lia; f_equal; lia).
    replace (2 ^ 53) with (2 ^ D * 2 ^ (53 - D))
      by (rewrite <- Z.pow_add_r by lia; f_equal; lia).
    nia. }
  assert (Dp' : Zpos (digits2_pos p') = 53).
  { apply digits2_pos_unique; [lia | exact Hp']. }
  remember (D - d + 43) as k eqn:Ek.
  destruct k as [|kp|kp]; try lia.
  assert (HM : Zpos (p * 8796093022208000) = Zpos p' * 2 ^ Zpos kp).
  { rewrite Pos2Z.inj_mul, Ep, Ep', Pos2Z.inj_mul, Ek.
    change (Zpos 8796093022208000) with (1000 * 2 ^ 43).
    replace (D - d + 43) with ((53 - d) + 43 - (53 - D)) by lia.
    assert (P : 2 ^ (53 - d + 43) = 2 ^ (53 - d + 43 - (53 - D)) * 2 ^ (53 - D))
      by (rewrite <- Z.pow_add_r by lia; f_equal; lia).
    rewrite Z.pow_add_r in P by lia. nia. }
  assert (DM : Zpos (digits2_pos (p * 8796093022208000)) = 53 + Zpos kp).
  { apply digits2_pos_unique; [lia|]. rewrite HM.
    assert (P : 0 < 2 ^ Zpos kp) by (apply Z.pow_pos_nonneg; lia).
    replace (53 + Zpos kp - 1) with (52 + Zpos kp) by lia.
    rewrite !Z.pow_add_r by lia. nia. }
  rewrite f1000_eq. unfold float_mul, SFmul. cbn [xorb].
  unfold binary_round_aux, shr_fexp.
  cbn [Zdigits2 shr_record_of_loc]. rewrite DM.
  unfold fexp, SpecFloat.emin, prec, emax.
  replace (Z.max (53 + Zpos kp + (d - 53 + -43) - 53) (3 - 1024 - 53)
           - (d - 53 + -43)) with (Zpos kp) by lia.
  cbn [shr]. rewrite HM, iter_shr_exact by lia.
  cbn [shr_m loc_of_shr_record round_nearest_even Zdigits2]. rewrite Dp'.
  replace (Z.max (53 + (d - 53 + -43 + Zpos kp) - 53) (3 - 1024 - 53)
           - (d - 53 + -43 + Zpos kp)) with 0 by lia.
  cbn [shr shr_m].
  replace (d - 53 + -43 + Zpos kp <=? 1024 - 53) with true
    by (symmetry; apply Z.leb_le; lia).
  f_equal. lia.
Qed.
End FloatMul.

Lemma float_mul_zero_1000 : float_mul (S754_zero false) f1000 = S754_zero false.
Proof. vm_compute. reflexivity. Qed.

Lemma digits_no_dot ip fp ds :
  decimal_text ip fp = ds -> all_in is_digit ds -> fp = [] /\ ip = ds.
Proof.
  unfold decimal_text. intros E H. destruct fp as [|c fp].
  - rewrite app_nil_r in E. auto.
  - exfalso. subst ds. apply all_in_app_r in H.
    inversion H as [|? ? Hc _]; subst. vm_compute in Hc. discriminate.
Qed.


Lemma whole_power_exact text mo ds u :
  search power_pat (lower text) = Some mo ->
  group mo NUM = Some ds -> group mo UNIT = Some u ->
  all_in is_digit ds ->
  (digits_val ds * unit_scale u < 2 ^ 53)%Z ->
  _extract_power_watts text = Ok (Some (digits_val ds * unit_scale u)%Z).
Proof.
  intros Hs Hn Hu Hd Hv.
  destruct (extract_power_hit _ Hs)
    as (ip & fp & u' & Hn' & _ & _ & _ & Hu' & _ & E).
  rewrite Hn in Hn'. injection Hn' as Hn'. symmetry in Hn'.
  rewrite Hu in Hu'. injection Hu' as <-.
  destruct (digits_no_dot _ _ Hn' Hd) as [-> ->].
  rewrite E. f_equal. unfold power_value, unit_scale in *.
  pose proof (digits_val_nonneg Hd) as Hnn.
  destruct (startswith (L "kw") (lower u) || startswith (L "kilo") (lower u)).
  - unfold decimal_float. rewrite app_nil_r.
    destruct (digits_val ds) as [|n|n] eqn:Ev; try lia.
    + rewrite float_mul_zero_1000. reflexivity.
    + change (Z.to_pos (10 ^ Z.of_nat (length (@nil ascii)))) with 1%positive.
      rewrite float_mul_1000 by exact Hv.
      rewrite py_round_pos_exact by (rewrite Pos2Z.inj_mul; exact Hv).
      reflexivity.
  - rewrite Z.mul_1_r in *. rewrite round_decimal_exact by auto. reflexivity.
Qed.

(** X5.  A whole number of watts or kilowatts is not rounded: when the
    leftmost number-and-unit match has a number without a fraction, the
    power is that number, times 1000 when the lower-cased unit starts with
    [kw] or with [kilo] (the test of the code), as long as the result is
    below [2^53]. *)
Theorem X5_whole_number_power_exact text mo ds u :
  search power_pat (lower text) = Some mo ->
  group mo NUM = Some ds -> group mo UNIT = Some u ->
  all_in is_digit ds ->
  (digits_val ds * unit_scale u < 2 ^ 53)%Z ->
  _extract_power_watts text = Ok (Some (digits_val ds * unit_scale u)%Z).
Proof. apply whole_power_exact. Qed.

Lemma X5_witness_kilowatts :
  _extract_power_watts (L "a 2500 KiloWatt pump") = Ok (Some 2500000%Z).
Proof.
  eapply (@X5_whole_number_power_exact (L "a 2500 KiloWatt pump") _
            (L "2500") (L "kilowatt")).
  - vm_compute. reflexivity.
  - vm_compute. reflexivity.
  - vm_compute. reflexivity.
  - repeat constructor.
  - vm_compute. reflexivity.
Defined.

(** * The service *)

Lemma lstrip_hd p s :
  match lstrip_by p s with
  | c :: _ => p c = false
  | [] => True
  end.
Proof.
  induction s as [|c s IH]; simpl; auto.
  destruct (p c) eqn:E; auto.
Qed.

Lemma lstrip_suffix p s : exists pre, s = pre ++ lstrip_by p s.
Proof.
  induction s as [|c s [pre IH]]; simpl.
  - exists []. reflexivity.
  - destruct (p c).
    + exists (c :: pre). simpl. f_equal. exact IH.
    + exists []. reflexivity.
Qed.

(** What [strip] returns has no white space at either end. *)
Lemma strip_no_space s :
  no_space_opt (hd_error (strip s)) /\ no_space_opt (adv None (strip s)).
Proof.
  unfold strip, strip_by.
  set (a := lstrip_by is_space s). set (b := lstrip_by is_space (rev a)).
  split.
  - rewrite hd_error_rev.
    destruct (lstrip_suffix is_space (rev a)) as [pre E]. fold b in E.
    destruct b as [|c b'] eqn:Eb; [exact I|].
    rewrite <- (@adv_nonempty (adv None pre) (c :: b')) by discriminate.
    rewrite <- adv_app, <- E, <- hd_error_rev, rev_involutive.
    pose proof (lstrip_hd is_space s) as H. fold a in H.
    destruct a; simpl; auto.
  - rewrite <- hd_error_rev, rev_involutive.
    pose proof (lstrip_hd is_space (rev a)) as H. fold b in H.
    destruct b; simpl; auto.
Qed.

Lemma strip_idem s : strip (strip s) = strip s.
Proof. destruct (strip_no_space s). apply strip_edges; auto. Qed.

Lemma truthy_nonempty (s : str) : truthy s = true <-> s <> [].
Proof. destruct s; simpl; split; congruence. Qed.

(** The handler of [speech_to_text]: it returns the empty text, or raises
    what [print] raises. *)
Lemma handler_outcome {world} (h : host world) line w1 :
  match (_ <~ print h line ;; ret ([] : str)) w1 with
  | (Returns t, w') => t = [] /\ print h line w1 = (Returns tt, w')
  | (Raises e, w') => print h line w1 = (Raises e, w')
  end.
Proof.
  unfold and_then, ret. destruct (print h line w1) as [[[]|e] w']; auto.
Qed.

(** The outcomes of [speech_to_text].  A text that it returns is
    stripped, and one that is not empty is the stripped [text] entry of
    the transcriber's result, in the transcriber's world.  It raises what
    [except Exception] lets through of the transcriber, or what [print]
    raises in the handler. *)
Lemma speech_to_text_outcome {world} (h : host world) audio_path w :
  match speech_to_text h audio_path w with
  | (Returns t, w') =>
      strip t = t /\
      (t <> [] ->
       exists result s,
         whisper_transcribe h audio_path w = (Transcript result, w') /\
         get_default result (L "text") (VStr []) = VStr s /\ t = strip s)
  | (Raises e, w') =>
      (exists cls,
          e = Other cls /\
          whisper_transcribe h audio_path w = (Interrupted cls, w')) \/
      (exists e0,
          print h (L "[ERROR] Whisper transcription failed: " ++ e0)
                (snd (whisper_transcribe h audio_path w)) = (Raises e, w'))
  end.
Proof.
  unfold speech_to_text.
  destruct (whisper_transcribe h audio_path w) as [out w1]. cbn [snd].
  assert (Hh : forall e0,
             match (_ <~ print h (L "[ERROR] Whisper transcription failed: "
                                    ++ e0) ;; ret ([] : str)) w1 with
             | (Returns t, w') =>
                 strip t = t /\
                 (t <> [] ->
                  exists result s,
                    (out, w1) = (Transcript result, w') /\
                    get_default result (L "text") (VStr []) = VStr s /\
                    t = strip s)
             | (Raises e, w') =>
                 (exists cls, e = Other cls /\ (out, w1) = (Interrupted cls, w'))
                 \/ (exists e1,
                        print h (L "[ERROR] Whisper transcription failed: "
                                   ++ e1) w1 = (Raises e, w'))
             end).
  { intros e0. pose proof (handler_outcome h
        (L "[ERROR] Whisper transcription failed: " ++ e0) w1) as H.
    destruct (and_then _ _ _) as [[t|e] w'].
    - destruct H as [-> _]. split; [reflexivity | congruence].
    - right. eauto. }
  destruct out as [result | e | cls].
  - destruct (get_default result (L "text") (VStr [])) as [|f|s] eqn:G;
      cbn [strip_of]; try apply Hh.
    split; [apply strip_idem|]. intros _. exists result, s. auto.
  - apply Hh.
  - left. exists cls. auto.
Qed.

(** Both endpoints, step by step.  Joining the path and writing the file
    come first and end the request when they raise.  Then the [finally]
    block decides: what it raises is raised; when it returns, the request
    raises what [speech_to_text] raised or returns what its text gives. *)
Lemma endpoints_unfold {world} (h : host world) file w :
  match filename file with
  | None =>
      transcribe h file w = (Raises (Engine TypeError), w) /\
      add_device_voice h file w = (Raises (Engine TypeError), w)
  | Some name =>
      let tmp_path := path_join h (tmp_dir h) name in
      match write_file h tmp_path (read file) w with
      | (Raises e, w1) =>
          transcribe h file w = (Raises e, w1) /\
          add_device_voice h file w = (Raises e, w1)
      | (Returns _, w1) =>
          let r := fst (speech_to_text h tmp_path w1) in
          let w2 := snd (speech_to_text h tmp_path w1) in
          match (if os_path_exists h tmp_path w2
                 then os_remove h tmp_path w2 else (Returns tt, w2)) with
          | (Raises e, w3) =>
              transcribe h file w = (Raises e, w3) /\
              add_device_voice h file w = (Raises e, w3)
          | (Returns _, w3) =>
              match r with
              | Raises e =>
                  transcribe h file w = (Raises e, w3) /\
                  add_device_voice h file w = (Raises e, w3)
              | Returns t =>
                  exists d,
                    parse_details t = Ok d /\ strip t = t /\
                    transcribe h file w =
                    (Returns (if truthy t then [(L "text", t)]
                              else error_response), w3) /\
                    add_device_voice h file w = (Returns d, w3)
              end
          end
      end
  end.
Proof.
  unfold transcribe, add_device_voice, os_path_join.
  destruct (filename file) as [name|]; [|split; reflexivity].
  unfold try_finally, and_then, ret.
  cbv beta iota zeta.
  set (tmp_path := path_join h (tmp_dir h) name).
  destruct (write_file h tmp_path (read file) w) as [[[]|e] w1];
    [|split; reflexivity].
  pose proof (speech_to_text_outcome h tmp_path w1) as S.
  destruct (speech_to_text h tmp_path w1) as [[t|e0] w2]; cbn [fst snd].
  - destruct S as [Hs _].
    destruct (parse_details_total t) as (d & Hd).
    assert (D0 : t = [] -> d = mkDeviceDetails None None None None None).
    { intros ->. vm_compute in Hd. congruence. }
    destruct t as [|c t]; cbn [truthy negb];
      [| rewrite Hd; cbn [lift]; unfold ret];
      cbv beta iota;
      (destruct (os_path_exists h tmp_path w2);
       [destruct (os_remove h tmp_path w2) as [[[]|e] w3] |];
       try (split; reflexivity));
      exists d; (split; [exact Hd || reflexivity|]); (split; [exact Hs|]);
      (split; [reflexivity|]);
      try reflexivity; rewrite (D0 eq_refl); reflexivity.
  - destruct (os_path_exists h tmp_path w2);
      [destruct (os_remove h tmp_path w2) as [[[]|e] w3] |];
      split; reflexivity.
Qed.

(** X6.  The outcomes of [speech_to_text].  A text that it returns has no
    white space at either end, and one that is not empty is the stripped
    [text] entry of the transcriber's result, in the world as the
    transcriber left it: nothing was printed.  What it raises is an
    exception of the transcriber that [except Exception] does not catch,
    or what [print] raises in the handler; every other exception of the
    transcriber is caught. *)
Theorem X6_speech_to_text_outcomes {world} (h : host world) audio_path w :
  match speech_to_text h audio_path w with
  | (Returns t, w') =>
      strip t = t /\
      no_space_opt (hd_error t) /\ no_space_opt (adv None t) /\
      (t <> [] ->
       exists result s,
         whisper_transcribe h audio_path w = (Transcript result, w') /\
         get_default result (L "text") (VStr []) = VStr s /\ t = strip s)
  | (Raises e, w') =>
      (exists cls,
          e = Other cls /\
          whisper_transcribe h audio_path w = (Interrupted cls, w')) \/
      (exists e0,
          print h (L "[ERROR] Whisper transcription failed: " ++ e0)
                (snd (whisper_transcribe h audio_path w)) = (Raises e, w'))
  end.
Proof.
  pose proof (speech_to_text_outcome h audio_path w) as S.
  destruct (speech_to_text h audio_path w) as [[t|e] w']; [|exact S].
  destruct S as [Hs Ht]. split; [exact Hs|].
  destruct (strip_no_space t) as [H1 H2]. rewrite Hs in H1, H2. auto.
Qed.

(** X7.  What [transcribe] returns is the error response or a response
    with the one key [text], whose value is not empty and has no white
    space at either end. *)
Theorem X7_transcribe_response {world} (h : host world) file w resp :
  fst (transcribe h file w) = Returns resp ->
  resp = error_response \/
  exists t, resp = [(L "text", t)] /\ t <> [] /\ strip t = t.
Proof.
  intros H. pose proof (endpoints_unfold h file w) as U.
  destruct (filename file) as [name|].
  - cbv zeta in U.
    destruct (write_file h (path_join h (tmp_dir h) name) (read file) w)
      as [[u|e] w1].
    + destruct (if os_path_exists _ _ _ then _ else _) as [[u'|e] w3];
        [|destruct U as [U _]; rewrite U in H; discriminate].
      destruct (fst (speech_to_text _ _ _)) as [t|e];
        [|destruct U as [U _]; rewrite U in H; discriminate].
      destruct U as (d & _ & Hs & U & _). rewrite U in H. cbn [fst] in H.
      injection H as <-. destruct t as [|c t]; cbn [truthy]; [left; reflexivity|].
      right. exists (c :: t). split; [reflexivity|]. split; [discriminate|].
      exact Hs.
    + destruct U as [U _]. rewrite U in H. discriminate.
  - destruct U as [U _]. rewrite U in H. discriminate.
Qed.

Lemma X7_witness_upload :
  [(L "text", L "fridge 3 star")] = error_response \/
  exists t, [(L "text", L "fridge 3 star")] = [(L "text", t)] /\ t <> [] /\
            strip t = t.
Proof.
  apply (@X7_transcribe_response _ plain_host
           (mkUploadFile (Some (L "a.wav")) (L "  fridge 3 star "))
           empty_world).
  vm_compute. reflexivity.
Defined.

(** X8.  [add_device_voice] is [transcribe] followed by [parse_text]: both
    leave the same world and raise the same exception, and when
    [transcribe] returns, [add_device_voice] returns what [parse_text]
    gives for the transcribed text, the error response standing for the
    empty text.  The test for an empty text in [add_device_voice] changes
    nothing. *)
Theorem X8_add_device_voice_is_transcribe_then_parse_text
    {world} (h : host world) file w :
  snd (add_device_voice h file w) = snd (transcribe h file w) /\
  match fst (transcribe h file w) with
  | Returns resp =>
      exists t d,
        (resp = [(L "text", t)] /\ t <> [] \/
         resp = error_response /\ t = []) /\
        parse_text (mkParseRequest t) = Ok d /\
        fst (add_device_voice h file w) = Returns d
  | Raises e => fst (add_device_voice h file w) = Raises e
  end.
Proof.
  pose proof (endpoints_unfold h file w) as U.
  destruct (filename file) as [name|].
  - cbv zeta in U.
    destruct (write_file h (path_join h (tmp_dir h) name) (read file) w)
      as [[u|e] w1].
    + destruct (if os_path_exists _ _ _ then _ else _) as [[u'|e] w3];
        [|destruct U as [U1 U2]; rewrite U1, U2; split; reflexivity].
      destruct (fst (speech_to_text _ _ _)) as [t|e];
        [|destruct U as [U1 U2]; rewrite U1, U2; split; reflexivity].
      destruct U as (d & Hd & _ & U1 & U2). rewrite U1, U2. cbn [fst snd].
      split; [reflexivity|].
      exists t, d. split; [|split; [exact Hd | reflexivity]].
      destruct t as [|c t]; cbn [truthy]; [right; auto|].
      left. split; [reflexivity | discriminate].
    + destruct U as [U1 U2]. rewrite U1, U2. split; reflexivity.
  - destruct U as [U1 U2]. rewrite U1, U2. split; reflexivity.
Qed.

(** X9.  When an endpoint returns, [os.path.exists] is false of the path
    of the uploaded file, or the world is the one in which [os.remove] of
    that path has just returned.  With an [os.remove] after whose return
    the path does not exist, the path does not exist when an endpoint
    returns. *)
Theorem X9_temp_path_after_return {world} (h : host world) file w name w' :
  filename file = Some name ->
  (exists resp, transcribe h file w = (Returns resp, w')) \/
  (exists d, add_device_voice h file w = (Returns d, w')) ->
  (os_path_exists h (path_join h (tmp_dir h) name) w' = false \/
   exists w2,
     os_path_exists h (path_join h (tmp_dir h) name) w2 = true /\
     os_remove h (path_join h (tmp_dir h) name) w2 = (Returns tt, w')) /\
  ((forall p w1 w2,
       os_remove h p w1 = (Returns tt, w2) -> os_path_exists h p w2 = false) ->
   os_path_exists h (path_join h (tmp_dir h) name) w' = false).
Proof.
  intros Hn H.
  assert (G : os_path_exists h (path_join h (tmp_dir h) name) w' = false \/
              exists w2,
                os_path_exists h (path_join h (tmp_dir h) name) w2 = true /\
                os_remove h (path_join h (tmp_dir h) name) w2 =
                (Returns tt, w')).
  { pose proof (endpoints_unfold h file w) as U. rewrite Hn in U.
    cbv zeta in U. set (tmp_path := path_join h (tmp_dir h) name) in *.
    destruct (write_file h tmp_path (read file) w) as [[[]|e] w1];
      [|destruct U as [U1 U2]; destruct H as [[r H] | [r H]]; congruence].
    set (w2 := snd (speech_to_text h tmp_path w1)) in *.
    assert (F : forall w3,
               (if os_path_exists h tmp_path w2
                then os_remove h tmp_path w2 else (Returns tt, w2)) =
               (Returns tt, w3) ->
               os_path_exists h tmp_path w3 = false \/
               exists w2,
                 os_path_exists h tmp_path w2 = true /\
                 os_remove h tmp_path w2 = (Returns tt, w3)).
    { intros w3 E. destruct (os_path_exists h tmp_path w2) eqn:X.
      - right. exists w2. auto.
      - left. injection E as <-. exact X. }
    destruct (if os_path_exists h tmp_path w2 then _ else _)
      as [[[]|e] w3];
      [|destruct U as [U1 U2]; destruct H as [[r H] | [r H]]; congruence].
    specialize (F w3 eq_refl).
    destruct (fst (speech_to_text h tmp_path w1)) as [t|e].
    - destruct U as (d & _ & _ & U1 & U2).
      assert (w' = w3) by (destruct H as [[r H] | [r H]]; congruence).
      subst w3. exact F.
    - destruct U as [U1 U2]. destruct H as [[r H] | [r H]]; congruence. }
  split; [exact G|]. intros R.
  destruct G as [G | (w2 & _ & G)]; [exact G | exact (R _ _ _ G)].
Qed.

Lemma X9_witness_upload :
  let tmp_path := L "/tmp/a.wav" in
  let up := mkUploadFile (Some (L "a.wav")) (L "  fridge 3 star ") in
  let w' := snd (add_device_voice plain_host up empty_world) in
  (os_path_exists plain_host tmp_path w' = false \/
   exists w2,
     os_path_exists plain_host tmp_path w2 = true /\
     os_remove plain_host tmp_path w2 = (Returns tt, w')) /\
  ((forall p w1 w2,
       os_remove plain_host p w1 = (Returns tt, w2) ->
       os_path_exists plain_host p w2 = false) ->
   os_path_exists plain_host tmp_path w' = false).
Proof.
  intros tmp_path up w'.
  apply (@X9_temp_path_after_return _ plain_host up empty_world (L "a.wav") w').
  - reflexivity.
  - right. eexists. vm_compute. reflexivity.
Defined.

(** X10.  When the upload is written, the transcriber raises an exception
    that [except Exception] catches and [print] returns, the request goes
    on to the [finally] block with the empty text: if that block returns,
    [transcribe] returns the error response and [add_device_voice] the
    record with every field absent; if [os.remove] raises there, both
    raise its exception. *)
Theorem X10_transcriber_failure_is_reported
    {world} (h : host world) file w name w1 e w2 w3 :
  filename file = Some name ->
  write_file h (path_join h (tmp_dir h) name) (read file) w =
  (Returns tt, w1) ->
  whisper_transcribe h (path_join h (tmp_dir h) name) w1 = (Fails e, w2) ->
  print h (L "[ERROR] Whisper transcription failed: " ++ e) w2 =
  (Returns tt, w3) ->
  match (if os_path_exists h (path_join h (tmp_dir h) name) w3
         then os_remove h (path_join h (tmp_dir h) name) w3
         else (Returns tt, w3)) with
  | (Returns _, w4) =>
      transcribe h file w = (Returns error_response, w4) /\
      add_device_voice h file w = (Returns absent_record, w4)
  | (Raises e', w4) =>
      transcribe h file w = (Raises e', w4) /\
      add_device_voice h file w = (Raises e', w4)
  end.
Proof.
  intros Hn Hw Ht Hp.
  pose proof (endpoints_unfold h file w) as U. rewrite Hn in U.
  cbv zeta in U. rewrite Hw in U.
  assert (S : speech_to_text h (path_join h (tmp_dir h) name) w1 =
              (Returns [], w3)).
  { unfold speech_to_text. rewrite Ht. unfold and_then. rewrite Hp.
    reflexivity. }
  rewrite S in U. cbn [fst snd] in U.
  destruct (if os_path_exists _ _ _ then _ else _) as [[u|e'] w4];
    [|exact U].
  destruct U as (d & Hd & _ & U1 & U2). cbn [truthy] in U1.
  split; [exact U1|]. rewrite U2.
  vm_compute in Hd. unfold absent_record. congruence.
Qed.

Lemma X10_witness_missing_file :
  let h := Host (tmp_dir plain_host) (path_join plain_host)
                (fun _ _ w => (Returns tt, w))
                (os_path_exists plain_host) (os_remove plain_host)
                (whisper_transcribe plain_host) (print plain_host) in
  let up := mkUploadFile (Some (L "a.wav")) (L "data") in
  let w3 := PlainWorld (fun _ => None)
              [L "[ERROR] Whisper transcription failed: No such file"] in
  transcribe h up empty_world = (Returns error_response, w3) /\
  add_device_voice h up empty_world = (Returns absent_record, w3).
Proof.
  intros h up w3.
  apply (@X10_transcriber_failure_is_reported _ h up empty_world (L "a.wav")
           empty_world (L "No such file") empty_world w3); reflexivity.
Defined.
